(** * Startup and shutdown supervisor of cmd-registry-k8s

    A shallow embedding of [main] and [exitOnErr] of the registry command:
    the main goroutine is a program counter over the statements of [main],
    every watcher goroutine spawned by [exitOnErr] is a small program counter
    of its own, and the operating system, the identity provider and the
    listeners' serve goroutines are the environment.  Goroutines interleave
    one statement at a time under an explicit schedule. *)

From Stdlib Require Import ZArith Lia.
From stdpp Require Import base list strings.

Local Open Scope string_scope.
Local Open Scope list_scope.

(** ** Go values *)

(** A value of Go's interface type [error]: [None] is [nil]. *)
Definition error : Type := option string.

(** The two results [(v, err)] of a fallible call. *)
Inductive result (A : Type) : Type :=
| Ok (a : A)
| Err (e : string).
Arguments Ok {A} a.
Arguments Err {A} e.

(** [url.URL], by its text. *)
Definition URL : Type := string.

(** [time.Duration]: nanoseconds. *)
Definition Duration : Type := Z.

(** ** Channels: [make(chan error, 1)] *)
Module Chan.

Record chan : Type := mkChan {
  buf : option error;   (* the single buffer slot *)
  closed : bool
}.

Definition make : chan := mkChan None false.

(** [c <- e]: [None] when the send cannot proceed (slot taken, or the
    channel is closed, where Go panics). *)
Definition send (e : error) (c : chan) : option chan :=
  if closed c then None
  else match buf c with
       | None => Some (mkChan (Some e) false)
       | Some _ => None
       end.

Definition close (c : chan) : option chan :=
  if closed c then None else Some (mkChan (buf c) true).

(** [<-c]: the buffered value first; the zero value [nil] of a closed and
    drained channel; [None] when the receive would block. *)
Definition recv (c : chan) : option (error * chan) :=
  match buf c with
  | Some e => Some (e, mkChan None (closed c))
  | None => if closed c then Some (None, c) else None
  end.

End Chan.

(** ** The lifetime context: [signal.NotifyContext] *)
Module Ctx.

Inductive Signal : Type :=
| SIGINT | SIGHUP | SIGTERM | SIGQUIT | SIGUSR1 | SIGUSR2.

(** The signals handed to [signal.NotifyContext] in [main]:
    [os.Interrupt], [syscall.SIGHUP], [syscall.SIGTERM],
    [syscall.SIGQUIT]. *)
Definition notified (sig : Signal) : bool :=
  match sig with
  | SIGINT | SIGHUP | SIGTERM | SIGQUIT => true
  | SIGUSR1 | SIGUSR2 => false
  end.

Record NotifyCtx : Type := mkCtx {
  ctx_done : bool;     (* the Done channel is closed *)
  registered : bool    (* the signals are still relayed to the context *)
}.

(** [ctx, cancel := signal.NotifyContext(context.Background(), ...)] *)
Definition NotifyContext : NotifyCtx := mkCtx false true.

(** The returned [cancel] (the context's stop function): marks the context
    done and unregisters the signals. *)
Definition cancel (c : NotifyCtx) : NotifyCtx := mkCtx true false.

(** One of the notified signals arrives while they are registered. *)
Definition on_signal (c : NotifyCtx) : NotifyCtx := mkCtx true (registered c).

(** A sequence of operations on the context, in the order they happen. *)
Inductive Op : Type := OpCancel | OpSignal.

Definition apply_op (c : NotifyCtx) (o : Op) : NotifyCtx :=
  match o with
  | OpCancel => cancel c
  | OpSignal => if registered c then on_signal c else c
  end.

Definition apply_ops (ops : list Op) (c : NotifyCtx) : NotifyCtx :=
  fold_left apply_op ops c.

End Ctx.

(** ** Identity and TLS: [workloadapi], [tlsconfig], [crypto/tls] *)

Definition SpiffeID : Type := string.
Definition RawCert : Type := string.

(** The X.509 source handed out by the workload API: its SVID and the
    verification of a peer's raw certificates against its trust bundle
    ([x509svid.ParseAndVerify]). *)
Record X509Source : Type := mkSource {
  GetX509SVID : result SpiffeID;
  ParseAndVerify : RawCert -> result SpiffeID
}.

Module TLS.

Inductive ClientAuthType : Type :=
| NoClientCert | RequestClientCert | RequireAnyClientCert
| VerifyClientCertIfGiven | RequireAndVerifyClientCert.

(** [tlsconfig.Authorizer]: decides on the verified peer identity. *)
Definition Authorizer : Type := SpiffeID -> error.

(** [tlsconfig.AuthorizeAny()] *)
Definition AuthorizeAny : Authorizer := fun _ => None.

(** The fields of [tls.Config] that [tlsconfig] and [main] set. *)
Record tls_Config : Type := mkTLS {
  MinVersion : Z;                                 (* uint16 *)
  ClientAuth : ClientAuthType;
  InsecureSkipVerify : bool;
  GetCertificate : option X509Source;             (* server certificate *)
  GetClientCertificate : option X509Source;       (* client certificate *)
  VerifyPeerCertificate : option (RawCert -> error)
}.

Definition VersionTLS12 : Z := 0x0303%Z.

Definition newTLSConfig : tls_Config :=
  mkTLS VersionTLS12 NoClientCert false None None None.

(** The verification hook installed by [tlsconfig]: verify the peer's
    certificates against the bundle, then ask the authorizer. *)
Definition WrapVerifyPeerCertificate (bundle : X509Source) (a : Authorizer)
  : RawCert -> error :=
  fun raw =>
    match ParseAndVerify bundle raw with
    | Err e => Some e
    | Ok id => a id
    end.

(** [tlsconfig.MTLSClientConfig(svid, bundle, authorizer)] *)
Definition MTLSClientConfig (svid bundle : X509Source) (a : Authorizer)
  : tls_Config :=
  mkTLS (MinVersion newTLSConfig) NoClientCert true None (Some svid)
        (Some (WrapVerifyPeerCertificate bundle a)).

(** [tlsconfig.MTLSServerConfig(svid, bundle, authorizer)] *)
Definition MTLSServerConfig (svid bundle : X509Source) (a : Authorizer)
  : tls_Config :=
  mkTLS (MinVersion newTLSConfig) RequireAnyClientCert false (Some svid) None
        (Some (WrapVerifyPeerCertificate bundle a)).

(** [cfg.MinVersion = v] *)
Definition set_MinVersion (v : Z) (cfg : tls_Config) : tls_Config :=
  mkTLS v (ClientAuth cfg) (InsecureSkipVerify cfg) (GetCertificate cfg)
        (GetClientCertificate cfg) (VerifyPeerCertificate cfg).

(** The configuration presents an SVID of [src] to its peer. *)
Definition presents (src : X509Source) (cfg : tls_Config) : Prop :=
  GetCertificate cfg = Some src \/ GetClientCertificate cfg = Some src.

(** The configuration demands and verifies the peer's certificate with
    the bundle of [src]: a client always receives the server's
    certificate, a server has to require the client's. *)
Definition verifies (src : X509Source) (a : Authorizer) (cfg : tls_Config)
  : Prop :=
  VerifyPeerCertificate cfg = Some (WrapVerifyPeerCertificate src a) /\
  (GetCertificate cfg <> None -> ClientAuth cfg = RequireAnyClientCert).

Definition mutual (src : X509Source) (a : Authorizer) (cfg : tls_Config)
  : Prop :=
  presents src cfg /\ verifies src a cfg.

(** The handshake's peer check under [cfg]: the verdict of the installed
    hook on the peer's raw certificates, [None] when no hook is installed. *)
Definition peer_check (cfg : tls_Config) (raw : RawCert) : option error :=
  match VerifyPeerCertificate cfg with
  | Some verify => Some (verify raw)
  | None => None
  end.

End TLS.

(** ** Configuration *)

(** The lifetime context as stored in a field: a reference to it. *)
Inductive ContextRef : Type := CtxLifetime.

(** The client set returned by [k8s.NewVersionedClient]: a handle. *)
Definition ClientSetRef : Type := nat.

(** The embedded [registryk8s.Config].  [main] assigns its [ClientSet] and
    [ChainCtx]; its remaining fields are declared outside this repository
    and are kept as the pairs that environment processing produced. *)
Record registryk8s_Config : Type := mkK8sConfig {
  EnvFields : list (string * string);
  ChainCtx : option ContextRef;
  ClientSet : option ClientSetRef
}.

Record Config : Type := mkConfig {
  EmbeddedConfig : registryk8s_Config;
  ListenOn : list URL;
  MaxTokenLifetime : Duration;
  RegistryServerPolicies : list string;
  RegistryClientPolicies : list string;
  LogLevel : string;
  OpenTelemetryEndpoint : string;
  MetricsExportInterval : Duration;
  PprofEnabled : bool;
  PprofListenOn : string;
  KubeletQPS : Z
}.

(** [new(Config)]: the zero value. *)
Definition new_Config : Config :=
  mkConfig (mkK8sConfig [] None None) [] 0%Z [] [] "" "" 0%Z false "" 0%Z.

Definition set_ClientSet (c : ClientSetRef) (cfg : Config) : Config :=
  mkConfig
    (mkK8sConfig (EnvFields (EmbeddedConfig cfg)) (ChainCtx (EmbeddedConfig cfg))
                 (Some c))
    (ListenOn cfg) (MaxTokenLifetime cfg) (RegistryServerPolicies cfg)
    (RegistryClientPolicies cfg) (LogLevel cfg) (OpenTelemetryEndpoint cfg)
    (MetricsExportInterval cfg) (PprofEnabled cfg) (PprofListenOn cfg)
    (KubeletQPS cfg).

Definition set_ChainCtx (c : ContextRef) (cfg : Config) : Config :=
  mkConfig
    (mkK8sConfig (EnvFields (EmbeddedConfig cfg)) (Some c)
                 (ClientSet (EmbeddedConfig cfg)))
    (ListenOn cfg) (MaxTokenLifetime cfg) (RegistryServerPolicies cfg)
    (RegistryClientPolicies cfg) (LogLevel cfg) (OpenTelemetryEndpoint cfg)
    (MetricsExportInterval cfg) (PprofEnabled cfg) (PprofListenOn cfg)
    (KubeletQPS cfg).

(** ** Logging *)

Inductive Level : Type :=
| PanicLevel | FatalLevel | ErrorLevel | WarnLevel
| InfoLevel | DebugLevel | TraceLevel.

(** What each logging call of [main] and [exitOnErr] prints. *)
Inductive Msg : Type :=
| MsgDebugSelf (e : string)       (* Infof("%s", err) *)
| MsgErr (e : error)              (* Fatal(err), Error(err) *)
| MsgProcess (e : string)         (* "error processing config from env: %+v" *)
| MsgInvalidLevel (l : string)    (* "invalid log level %s" *)
| MsgConfig (c : Config)          (* "Config: %#v" *)
| MsgOtelClose (e : string)       (* Error(err.Error()) of the deferred Close *)
| MsgX509Source (e : string)      (* "error getting x509 source: %+v" *)
| MsgX509SVID (e : string)        (* "error getting x509 svid: %+v" *)
| MsgSVID (id : SpiffeID)         (* "SVID: %q" *)
| MsgVersionedClient (e : string) (* "error creating NewVersionedClient: %+v" *)
| MsgStartupCompleted.            (* "Startup completed in %v" *)

Record LogEntry : Type := mkEntry { lvl : Level; msg : Msg }.

(** ** The environment of one execution *)

(** What the calls into the operating system and the libraries return. *)
Record Env : Type := mkEnv {
  debug_Self : error;
  envconfig_Usage : error;
  envconfig_Process : result Config;
  logrus_ParseLevel : string -> result Level;
  opentelemetry_IsEnabled : bool;
  otel_Close : error;
  workloadapi_NewX509Source : result X509Source;
  k8s_NewVersionedClient : result ClientSetRef;
  (* the bind error of the [i]-th call of [grpcutils.ListenAndServe] *)
  net_Listen : nat -> URL -> error
}.

(** [grpcutils.ListenAndServe(ctx, address, server)]: the error channel it
    returns.  A bind failure is already in the channel, which is closed; a
    listener that bound hands back an empty channel and serves in a
    goroutine of its own. *)
Definition ListenAndServe (env : Env) (i : nat) (address : URL) : Chan.chan :=
  match net_Listen env i address with
  | Some e => Chan.mkChan (Some (Some e)) true
  | None => Chan.make
  end.

(** ** Process state *)

(** The statements of [main], in program order. *)
Inductive PC : Type :=
| PcDebugSelf | PcUsage | PcProcess | PcParseLevel | PcOtel | PcPprof
| PcX509Source | PcX509SVID | PcTLSClient | PcTLSServer | PcServer
| PcClientOptions | PcVersionedClient | PcAdjustConfig | PcNewServer
| PcListen (i : nat)       (* loop test and [grpcutils.ListenAndServe] *)
| PcExitOnErr (i : nat)    (* the call of [exitOnErr] on the channel *)
| PcWait                   (* [<-ctx.Done()] *)
| PcReturned.

Inductive Status : Type :=
| Running
| Exited (code : Z).

(** The goroutine spawned by [exitOnErr]. *)
Inductive Watcher : Type :=
| WRecv (ch : nat)     (* blocked in [err := <-errCh] on listener [ch] *)
| WLog (err : error)   (* about to [log.FromContext(ctx).Error(err)] *)
| WCancel              (* about to [cancel()] *)
| WDone.

Record Listener : Type := mkListener { addr : URL; errCh : Chan.chan }.

(** [grpc.NewServer] with the server credentials. *)
Record GrpcServer : Type := mkServer { creds : TLS.tls_Config }.

(** The client dial options. *)
Record DialOptions : Type := mkDial {
  transport : TLS.tls_Config;
  token_source : X509Source;
  token_lifetime : Duration
}.

(** The arguments [registryk8s.NewServer] is called with. *)
Record Chain : Type := mkChain {
  chain_config : registryk8s_Config;
  chain_token_source : X509Source;
  chain_token_lifetime : Duration;
  chain_server_policies : list string;
  chain_client_policies : list string;
  chain_dial : DialOptions;
  chain_registered_on : GrpcServer
}.

Record State := mkState {
  pc : PC;
  status : Status;
  ctx : Ctx.NotifyCtx;
  config : Config;
  level : Level;
  onsig : option Level;
  otel : bool;
  pprof : bool;
  source : option X509Source;
  tlsClient : option TLS.tls_Config;
  tlsServer : option TLS.tls_Config;
  server : option GrpcServer;
  dial : option DialOptions;
  client : option ClientSetRef;
  chain : option Chain;
  listeners : list Listener;
  watchers : list Watcher;
  log : list LogEntry
}.

Definition with_pc (v : PC) (s : State) : State :=
  mkState v (status s) (ctx s) (config s) (level s) (onsig s) (otel s)
  (pprof s) (source s) (tlsClient s) (tlsServer s) (server s) (dial s)
  (client s) (chain s) (listeners s) (watchers s) (log s).

Definition with_status (v : Status) (s : State) : State :=
  mkState (pc s) v (ctx s) (config s) (level s) (onsig s) (otel s) (pprof s)
  (source s) (tlsClient s) (tlsServer s) (server s) (dial s) (client s)
  (chain s) (listeners s) (watchers s) (log s).

Definition with_ctx (v : Ctx.NotifyCtx) (s : State) : State :=
  mkState (pc s) (status s) v (config s) (level s) (onsig s) (otel s) (pprof
  s) (source s) (tlsClient s) (tlsServer s) (server s) (dial s) (client s)
  (chain s) (listeners s) (watchers s) (log s).

Definition with_config (v : Config) (s : State) : State :=
  mkState (pc s) (status s) (ctx s) v (level s) (onsig s) (otel s) (pprof s)
  (source s) (tlsClient s) (tlsServer s) (server s) (dial s) (client s)
  (chain s) (listeners s) (watchers s) (log s).

Definition with_level (v : Level) (s : State) : State :=
  mkState (pc s) (status s) (ctx s) (config s) v (onsig s) (otel s) (pprof
  s) (source s) (tlsClient s) (tlsServer s) (server s) (dial s) (client s)
  (chain s) (listeners s) (watchers s) (log s).

Definition with_onsig (v : option Level) (s : State) : State :=
  mkState (pc s) (status s) (ctx s) (config s) (level s) v (otel s) (pprof
  s) (source s) (tlsClient s) (tlsServer s) (server s) (dial s) (client s)
  (chain s) (listeners s) (watchers s) (log s).

Definition with_otel (v : bool) (s : State) : State :=
  mkState (pc s) (status s) (ctx s) (config s) (level s) (onsig s) v (pprof
  s) (source s) (tlsClient s) (tlsServer s) (server s) (dial s) (client s)
  (chain s) (listeners s) (watchers s) (log s).

Definition with_pprof (v : bool) (s : State) : State :=
  mkState (pc s) (status s) (ctx s) (config s) (level s) (onsig s) (otel s)
  v (source s) (tlsClient s) (tlsServer s) (server s) (dial s) (client s)
  (chain s) (listeners s) (watchers s) (log s).

Definition with_source (v : option X509Source) (s : State) : State :=
  mkState (pc s) (status s) (ctx s) (config s) (level s) (onsig s) (otel s)
  (pprof s) v (tlsClient s) (tlsServer s) (server s) (dial s) (client s)
  (chain s) (listeners s) (watchers s) (log s).

Definition with_tlsClient (v : option TLS.tls_Config) (s : State) : State :=
  mkState (pc s) (status s) (ctx s) (config s) (level s) (onsig s) (otel s)
  (pprof s) (source s) v (tlsServer s) (server s) (dial s) (client s) (chain
  s) (listeners s) (watchers s) (log s).

Definition with_tlsServer (v : option TLS.tls_Config) (s : State) : State :=
  mkState (pc s) (status s) (ctx s) (config s) (level s) (onsig s) (otel s)
  (pprof s) (source s) (tlsClient s) v (server s) (dial s) (client s) (chain
  s) (listeners s) (watchers s) (log s).

Definition with_server (v : option GrpcServer) (s : State) : State :=
  mkState (pc s) (status s) (ctx s) (config s) (level s) (onsig s) (otel s)
  (pprof s) (source s) (tlsClient s) (tlsServer s) v (dial s) (client s)
  (chain s) (listeners s) (watchers s) (log s).

Definition with_dial (v : option DialOptions) (s : State) : State :=
  mkState (pc s) (status s) (ctx s) (config s) (level s) (onsig s) (otel s)
  (pprof s) (source s) (tlsClient s) (tlsServer s) (server s) v (client s)
  (chain s) (listeners s) (watchers s) (log s).

Definition with_client (v : option ClientSetRef) (s : State) : State :=
  mkState (pc s) (status s) (ctx s) (config s) (level s) (onsig s) (otel s)
  (pprof s) (source s) (tlsClient s) (tlsServer s) (server s) (dial s) v
  (chain s) (listeners s) (watchers s) (log s).

Definition with_chain (v : option Chain) (s : State) : State :=
  mkState (pc s) (status s) (ctx s) (config s) (level s) (onsig s) (otel s)
  (pprof s) (source s) (tlsClient s) (tlsServer s) (server s) (dial s)
  (client s) v (listeners s) (watchers s) (log s).

Definition with_listeners (v : list Listener) (s : State) : State :=
  mkState (pc s) (status s) (ctx s) (config s) (level s) (onsig s) (otel s)
  (pprof s) (source s) (tlsClient s) (tlsServer s) (server s) (dial s)
  (client s) (chain s) v (watchers s) (log s).

Definition with_watchers (v : list Watcher) (s : State) : State :=
  mkState (pc s) (status s) (ctx s) (config s) (level s) (onsig s) (otel s)
  (pprof s) (source s) (tlsClient s) (tlsServer s) (server s) (dial s)
  (client s) (chain s) (listeners s) v (log s).

Definition with_log (v : list LogEntry) (s : State) : State :=
  mkState (pc s) (status s) (ctx s) (config s) (level s) (onsig s) (otel s)
  (pprof s) (source s) (tlsClient s) (tlsServer s) (server s) (dial s)
  (client s) (chain s) (listeners s) (watchers s) v.

(** The state on entry to line 98 of [main]: the configuration is allocated,
    the lifetime context is created with the signals registered, and the
    logger (at logrus's default level) is attached to the context. *)
Definition init : State :=
  mkState PcDebugSelf Running Ctx.NotifyContext new_Config InfoLevel None
          false false None None None None None None None [] [] [].

(** ** Logging calls *)

(** A logging call at level [l].  [log] is the record of the logging calls
    made so far, in order, and keeps every call; which of them logrus writes
    out depends on the level that [logrus.SetLevel] has set by then. *)
Definition logf (l : Level) (m : Msg) (s : State) : State :=
  with_log (log s ++ [mkEntry l m]) s.

(** [logrus.Fatal], [logrus.Fatalf], [log.FromContext(ctx).Fatal]: the call
    is recorded and the process exits with code 1; deferred calls do not
    run. *)
Definition Fatal (m : Msg) (s : State) : State :=
  with_status (Exited 1) (logf FatalLevel m s).

(** [cancel()], the stop function of the lifetime context, called by a
    watcher and, deferred, by [main]. *)
Definition call_cancel (s : State) : State :=
  with_ctx (Ctx.cancel (ctx s)) s.

(** ** The main goroutine *)

Definition set_errCh (i : nat) (c : Chan.chan) (ls : list Listener)
  : list Listener :=
  match ls !! i with
  | Some l => <[i := mkListener (addr l) c]> ls
  | None => ls
  end.

(** [exitOnErr(ctx, cancel, errCh)] on the channel of listener [i]. *)
Definition exitOnErr (i : nat) (s : State) : option State :=
  match listeners s !! i with
  | None => None
  | Some l =>
      (* select { case err := <-errCh: Fatal(err); default: } *)
      match Chan.recv (errCh l) with
      | Some (err, c') =>
          Some (Fatal (MsgErr err)
                      (with_listeners (set_errCh i c' (listeners s)) s))
      | None =>
          (* go func(ctx, errCh) { ... }(ctx, errCh) *)
          Some (with_watchers (watchers s ++ [WRecv i]) s)
      end
  end.

(** The return of [main]: the deferred calls run last-in first-out (the
    telemetry [Close] when it was deferred, then [cancel]), and the process
    exits with code 0. *)
Definition main_return (env : Env) (s : State) : State :=
  let s1 :=
    if otel s then
      match otel_Close env with
      | Some e => logf ErrorLevel (MsgOtelClose e) s
      | None => s
      end
    else s in
  with_status (Exited 0) (with_pc PcReturned (call_cancel s1)).

(** One statement of [main]; [None] when [main] is blocked or has left. *)
Definition main_step (env : Env) (s : State) : option State :=
  match pc s with
  | PcDebugSelf =>
      Some (with_pc PcUsage
              match debug_Self env with
              | Some e => logf InfoLevel (MsgDebugSelf e) s
              | None => s
              end)
  | PcUsage =>
      match envconfig_Usage env with
      | Some e => Some (Fatal (MsgErr (Some e)) s)
      | None => Some (with_pc PcProcess s)
      end
  | PcProcess =>
      match envconfig_Process env with
      | Err e => Some (Fatal (MsgProcess e) s)
      | Ok c => Some (with_pc PcParseLevel (with_config c s))
      end
  | PcParseLevel =>
      match logrus_ParseLevel env (LogLevel (config s)) with
      | Err _ => Some (Fatal (MsgInvalidLevel (LogLevel (config s))) s)
      | Ok l =>
          Some (with_pc PcOtel
                  (with_onsig (Some l)
                     (logf InfoLevel (MsgConfig (config s)) (with_level l s))))
      end
  | PcOtel =>
      Some (with_pc PcPprof
              (if opentelemetry_IsEnabled env then with_otel true s else s))
  | PcPprof =>
      Some (with_pc PcX509Source
              (if PprofEnabled (config s) then with_pprof true s else s))
  | PcX509Source =>
      match workloadapi_NewX509Source env with
      | Err e => Some (Fatal (MsgX509Source e) s)
      | Ok src => Some (with_pc PcX509SVID (with_source (Some src) s))
      end
  | PcX509SVID =>
      match source s with
      | None => None
      | Some src =>
          match GetX509SVID src with
          | Err e => Some (Fatal (MsgX509SVID e) s)
          | Ok id => Some (with_pc PcTLSClient (logf InfoLevel (MsgSVID id) s))
          end
      end
  | PcTLSClient =>
      match source s with
      | None => None
      | Some src =>
          Some (with_pc PcTLSServer
                  (with_tlsClient
                     (Some (TLS.set_MinVersion TLS.VersionTLS12
                              (TLS.MTLSClientConfig src src TLS.AuthorizeAny)))
                     s))
      end
  | PcTLSServer =>
      match source s with
      | None => None
      | Some src =>
          Some (with_pc PcServer
                  (with_tlsServer
                     (Some (TLS.set_MinVersion TLS.VersionTLS12
                              (TLS.MTLSServerConfig src src TLS.AuthorizeAny)))
                     s))
      end
  | PcServer =>
      match tlsServer s with
      | None => None
      | Some sc => Some (with_pc PcClientOptions (with_server (Some (mkServer sc)) s))
      end
  | PcClientOptions =>
      match tlsClient s, source s with
      | Some cc, Some src =>
          Some (with_pc PcVersionedClient
                  (with_dial (Some (mkDial cc src (MaxTokenLifetime (config s)))) s))
      | _, _ => None
      end
  | PcVersionedClient =>
      match k8s_NewVersionedClient env with
      | Err e => Some (Fatal (MsgVersionedClient e) s)
      | Ok c => Some (with_pc PcAdjustConfig (with_client (Some c) s))
      end
  | PcAdjustConfig =>
      (* config.ClientSet = client; config.ChainCtx = ctx *)
      match client s with
      | None => None
      | Some c =>
          Some (with_pc PcNewServer
                  (with_config
                     (set_ChainCtx CtxLifetime (set_ClientSet c (config s))) s))
      end
  | PcNewServer =>
      match source s, dial s, server s with
      | Some src, Some d, Some srv =>
          Some (with_pc (PcListen 0)
                  (with_chain
                     (Some (mkChain (EmbeddedConfig (config s)) src
                              (MaxTokenLifetime (config s))
                              (RegistryServerPolicies (config s))
                              (RegistryClientPolicies (config s)) d srv))
                     s))
      | _, _, _ => None
      end
  | PcListen i =>
      match ListenOn (config s) !! i with
      | Some address =>
          Some (with_pc (PcExitOnErr i)
                  (with_listeners
                     (listeners s
                        ++ [mkListener address (ListenAndServe env i address)])
                     s))
      | None =>
          Some (with_pc PcWait (logf InfoLevel MsgStartupCompleted s))
      end
  | PcExitOnErr i =>
      match exitOnErr i s with
      | Some s' =>
          Some (match status s' with
                | Running => with_pc (PcListen (S i)) s'
                | Exited _ => s'
                end)
      | None => None
      end
  | PcWait =>
      if Ctx.ctx_done (ctx s) then Some (main_return env s) else None
  | PcReturned => None
  end.

(** ** The watcher goroutines *)

(** One statement of watcher [j]; [None] when it is blocked or finished. *)
Definition watcher_step (j : nat) (s : State) : option State :=
  match watchers s !! j with
  | Some (WRecv i) =>
      match listeners s !! i with
      | None => None
      | Some l =>
          match Chan.recv (errCh l) with
          | Some (err, c') =>
              Some (with_watchers (<[j := WLog err]> (watchers s))
                      (with_listeners (set_errCh i c' (listeners s)) s))
          | None => None
          end
      end
  | Some (WLog err) =>
      Some (with_watchers (<[j := WCancel]> (watchers s))
              (logf ErrorLevel (MsgErr err) s))
  | Some WCancel =>
      Some (with_watchers (<[j := WDone]> (watchers s)) (call_cancel s))
  | Some WDone | None => None
  end.

(** ** The environment's moves *)

(** A signal arrives.  The four notified signals mark the context done
    while they are registered; [SIGUSR1] and [SIGUSR2] switch the log level
    once [logruslogger.SetupLevelChangeOnSignal] has run.  A signal nobody
    is registered for is left to the operating system. *)
Definition signal_step (sig : Ctx.Signal) (s : State) : option State :=
  if Ctx.notified sig then
    if Ctx.registered (ctx s) then Some (with_ctx (Ctx.on_signal (ctx s)) s)
    else None
  else
    match onsig s, sig with
    | Some _, Ctx.SIGUSR1 => Some (with_level TraceLevel s)
    | Some l, Ctx.SIGUSR2 => Some (with_level l s)
    | _, _ => None
    end.

(** The serve goroutine of listener [i] sends [e] on its error channel. *)
Definition serve_err_step (i : nat) (e : error) (s : State) : option State :=
  match listeners s !! i with
  | None => None
  | Some l =>
      match Chan.send e (errCh l) with
      | Some c' => Some (with_listeners (set_errCh i c' (listeners s)) s)
      | None => None
      end
  end.

(** The serve goroutine of listener [i] closes its error channel. *)
Definition serve_close_step (i : nat) (s : State) : option State :=
  match listeners s !! i with
  | None => None
  | Some l =>
      match Chan.close (errCh l) with
      | Some c' => Some (with_listeners (set_errCh i c' (listeners s)) s)
      | None => None
      end
  end.

(** ** Interleaving *)

Inductive Action : Type :=
| AMain                                (* the main goroutine moves *)
| AWatcher (j : nat)                   (* watcher [j] moves *)
| ASignal (sig : Ctx.Signal)           (* the OS delivers a signal *)
| AServeErr (i : nat) (e : error)      (* listener [i] reports an error *)
| AServeClose (i : nat).               (* listener [i] closes its channel *)

(** Nothing moves once the process has exited. *)
Definition step (env : Env) (a : Action) (s : State) : option State :=
  match status s with
  | Exited _ => None
  | Running =>
      match a with
      | AMain => main_step env s
      | AWatcher j => watcher_step j s
      | ASignal sig => signal_step sig s
      | AServeErr i e => serve_err_step i e s
      | AServeClose i => serve_close_step i s
      end
  end.

Fixpoint run (env : Env) (sched : list Action) (s : State) : option State :=
  match sched with
  | [] => Some s
  | a :: sched' =>
      match step env a s with
      | Some s' => run env sched' s'
      | None => None
      end
  end.

Definition reachable (env : Env) (s : State) : Prop :=
  exists sched, run env sched init = Some s.

(** ** A sample environment

    Everything succeeds: the default configuration with one listen address,
    telemetry off, an identity whose bundle rejects only the raw certificate
    ["forged"]. *)

Definition sample_source : X509Source :=
  mkSource (Ok "spiffe://example.org/registry")
           (fun raw => if String.eqb raw "forged"
                       then Err "x509: certificate signed by unknown authority"
                       else Ok (String.append "spiffe://example.org/" raw)).

Definition sample_config : Config :=
  mkConfig (mkK8sConfig [("Namespace", "default")] None None)
           ["unix:///listen.on.socket"] 600000000000%Z
           ["etc/nsm/opa/common/.*.rego"; "etc/nsm/opa/registry/.*.rego";
            "etc/nsm/opa/server/.*.rego"]
           ["etc/nsm/opa/common/.*.rego"; "etc/nsm/opa/registry/.*.rego";
            "etc/nsm/opa/client/.*.rego"]
           "INFO" "otel-collector.observability.svc.cluster.local:4317"
           10000000000%Z false "localhost:6060" 205%Z.

Definition sample_env : Env :=
  mkEnv None None (Ok sample_config) (fun _ => Ok InfoLevel) false None
        (Ok sample_source) (Ok 7) (fun _ _ => None).

(** The same with three listen addresses, the second of which is in use. *)
Definition three_addresses : list URL :=
  ["tcp://10.0.0.1:5002"; "tcp://10.0.0.2:5002"; "unix:///listen.on.socket"].

Definition busy_config : Config :=
  mkConfig (EmbeddedConfig sample_config) three_addresses
           (MaxTokenLifetime sample_config)
           (RegistryServerPolicies sample_config)
           (RegistryClientPolicies sample_config) (LogLevel sample_config)
           (OpenTelemetryEndpoint sample_config)
           (MetricsExportInterval sample_config) false
           (PprofListenOn sample_config) (KubeletQPS sample_config).

Definition busy_env : Env :=
  mkEnv None None (Ok busy_config) (fun _ => Ok InfoLevel) false None
        (Ok sample_source) (Ok 7)
        (fun i _ => if Nat.eqb i 1 then Some "bind: address already in use"
                    else None).

(** [main] alone, from line 98 to the first listener. *)
Definition startup : list Action := repeat AMain 15.

(** * Invariants of the reachable states *)

(** The position of a statement in [main]'s program order. *)
Definition stage (p : PC) : nat :=
  match p with
  | PcDebugSelf => 0 | PcUsage => 1 | PcProcess => 2 | PcParseLevel => 3
  | PcOtel => 4 | PcPprof => 5 | PcX509Source => 6 | PcX509SVID => 7
  | PcTLSClient => 8 | PcTLSServer => 9 | PcServer => 10
  | PcClientOptions => 11 | PcVersionedClient => 12 | PcAdjustConfig => 13
  | PcNewServer => 14 | PcListen _ => 15 | PcExitOnErr _ => 15
  | PcWait => 16 | PcReturned => 17
  end.

(** Listeners started and watchers spawned when [main] stands at [p], out
    of [total] configured addresses. *)
Definition started (p : PC) (total : nat) : nat :=
  match p with
  | PcListen i => i
  | PcExitOnErr i => S i
  | PcWait | PcReturned => total
  | _ => 0
  end.

Definition watched (p : PC) (total : nat) : nat :=
  match p with
  | PcListen i | PcExitOnErr i => i
  | PcWait | PcReturned => total
  | _ => 0
  end.

(** ** The locals of [main]

    Every local of [main] is assigned once, by one statement, from values
    the environment fixes: in a reachable state it is a function of the
    program counter. *)

Definition after {A : Type} (n : nat) (p : PC) (v : option A) : option A :=
  if Nat.leb (stage p) n then None else v.

Definition processed (env : Env) : Config :=
  match envconfig_Process env with
  | Ok c0 => c0
  | Err _ => new_Config
  end.

Definition source_of (env : Env) : option X509Source :=
  match workloadapi_NewX509Source env with
  | Ok src => Some src
  | Err _ => None
  end.

Definition client_of (env : Env) : option ClientSetRef :=
  match k8s_NewVersionedClient env with
  | Ok c => Some c
  | Err _ => None
  end.

Definition tlsClient_of (env : Env) : option TLS.tls_Config :=
  match source_of env with
  | Some src =>
      Some (TLS.set_MinVersion TLS.VersionTLS12
              (TLS.MTLSClientConfig src src TLS.AuthorizeAny))
  | None => None
  end.

Definition tlsServer_of (env : Env) : option TLS.tls_Config :=
  match source_of env with
  | Some src =>
      Some (TLS.set_MinVersion TLS.VersionTLS12
              (TLS.MTLSServerConfig src src TLS.AuthorizeAny))
  | None => None
  end.

Definition server_of (env : Env) : option GrpcServer :=
  match tlsServer_of env with
  | Some sc => Some (mkServer sc)
  | None => None
  end.

Definition dial_of (env : Env) : option DialOptions :=
  match tlsClient_of env, source_of env with
  | Some cc, Some src =>
      Some (mkDial cc src (MaxTokenLifetime (processed env)))
  | _, _ => None
  end.

(** The configuration [main] holds at [p]. *)
Definition config_at (env : Env) (p : PC) : Config :=
  if Nat.leb (stage p) 2 then new_Config
  else if Nat.leb (stage p) 13 then processed env
  else match client_of env with
       | Some c => set_ChainCtx CtxLifetime (set_ClientSet c (processed env))
       | None => processed env
       end.

Definition chain_of (env : Env) : option Chain :=
  match source_of env, dial_of env, server_of env with
  | Some src, Some d, Some srv =>
      let cfg := config_at env PcNewServer in
      Some (mkChain (EmbeddedConfig cfg) src (MaxTokenLifetime cfg)
              (RegistryServerPolicies cfg) (RegistryClientPolicies cfg) d srv)
  | _, _, _ => None
  end.

Definition is_ok {A : Type} (r : result A) : bool :=
  match r with Ok _ => true | Err _ => false end.

Record InvLocals (env : Env) (s : State) : Prop := mkInvLocals {
  il_source : source s = after 6 (pc s) (source_of env);
  il_tlsClient : tlsClient s = after 8 (pc s) (tlsClient_of env);
  il_tlsServer : tlsServer s = after 9 (pc s) (tlsServer_of env);
  il_server : server s = after 10 (pc s) (server_of env);
  il_dial : dial s = after 11 (pc s) (dial_of env);
  il_client : client s = after 12 (pc s) (client_of env);
  il_config : config s = config_at env (pc s);
  il_chain : chain s = after 14 (pc s) (chain_of env);
  il_processed :
    Nat.leb (stage (pc s)) 2 || is_ok (envconfig_Process env) = true;
  il_identified :
    Nat.leb (stage (pc s)) 6 || is_ok (workloadapi_NewX509Source env) = true;
  il_connected :
    Nat.leb (stage (pc s)) 12 || is_ok (k8s_NewVersionedClient env) = true
}.

(** ** Listeners and watchers

    Listener [i] is the [i]-th configured address; its channel is checked by
    [exitOnErr] before watcher [i], the only later reader, is spawned; a
    watcher that finished has cancelled the context. *)

Record InvListen (s : State) : Prop := mkInvListen {
  iw_started :
    length (listeners s) = started (pc s) (length (ListenOn (config s)));
  iw_bound :
    started (pc s) (length (ListenOn (config s)))
    <= length (ListenOn (config s));
  iw_addr :
    addr <$> listeners s = take (length (listeners s)) (ListenOn (config s));
  iw_watched :
    length (watchers s) = watched (pc s) (length (ListenOn (config s)));
  iw_own : forall j i, watchers s !! j = Some (WRecv i) -> i = j;
  iw_done :
    forall j, watchers s !! j = Some WDone -> Ctx.ctx_done (ctx s) = true;
  iw_returned : pc s = PcReturned -> Ctx.ctx_done (ctx s) = true;
  iw_config : stage (pc s) <= 2 -> ListenOn (config s) = []
}.

(** ** Exit code and log *)

Definition is_fatal (e : LogEntry) : bool :=
  match lvl e with FatalLevel => true | _ => false end.

(** The number of entries logged at Fatal level. *)
Fixpoint fatals (l : list LogEntry) : nat :=
  match l with
  | [] => 0
  | e :: l' => (if is_fatal e then 1 else 0) + fatals l'
  end.

(** The statements of [main] that may log at Fatal level. *)
Definition fatal_site (p : PC) : bool :=
  match p with
  | PcUsage | PcProcess | PcParseLevel | PcX509Source | PcX509SVID
  | PcVersionedClient | PcExitOnErr _ => true
  | _ => false
  end.

(** The fatal condition at [main]'s next statement, with the message it is
    logged with: a startup call that fails, or an error already in the
    channel that [exitOnErr] is called with. *)
Definition fatal_at (env : Env) (s : State) : option Msg :=
  match pc s with
  | PcUsage =>
      match envconfig_Usage env with
      | Some e => Some (MsgErr (Some e))
      | None => None
      end
  | PcProcess =>
      match envconfig_Process env with
      | Err e => Some (MsgProcess e)
      | Ok _ => None
      end
  | PcParseLevel =>
      match logrus_ParseLevel env (LogLevel (config s)) with
      | Err _ => Some (MsgInvalidLevel (LogLevel (config s)))
      | Ok _ => None
      end
  | PcX509Source =>
      match workloadapi_NewX509Source env with
      | Err e => Some (MsgX509Source e)
      | Ok _ => None
      end
  | PcX509SVID =>
      match source s with
      | Some src =>
          match GetX509SVID src with
          | Err e => Some (MsgX509SVID e)
          | Ok _ => None
          end
      | None => None
      end
  | PcVersionedClient =>
      match k8s_NewVersionedClient env with
      | Err e => Some (MsgVersionedClient e)
      | Ok _ => None
      end
  | PcExitOnErr i =>
      match listeners s !! i with
      | Some l =>
          match Chan.recv (errCh l) with
          | Some (err, _) => Some (MsgErr err)
          | None => None
          end
      | None => None
      end
  | _ => None
  end.

Definition InvExit (s : State) : Prop :=
  match status s with
  | Running => fatals (log s) = 0 /\ pc s <> PcReturned
  | Exited c =>
      (c = 0%Z /\ pc s = PcReturned /\ fatals (log s) = 0) \/
      (c = 1%Z /\ fatal_site (pc s) = true /\ fatals (log s) = 1)
  end.

(** ** Sample executions *)

(** [main] up to [<-ctx.Done()] when one address is configured. *)
Definition serving : list Action := startup ++ [AMain; AMain; AMain].

(** The listener fails while serving; its watcher logs and cancels; [main]
    wakes up and returns. *)
Definition async_failure : list Action :=
  serving ++ [AServeErr 0 (Some "serve: use of closed network connection");
              AWatcher 0; AWatcher 0; AWatcher 0; AMain].

(** Three addresses, up to the call of [exitOnErr] for the second. *)
Definition second_listener : list Action :=
  startup ++ [AMain; AMain; AMain].

Definition state_after (env : Env) (sched : list Action) : State :=
  match run env sched init with
  | Some s => s
  | None => init
  end.

Definition serving_state : State :=
  Eval vm_compute in state_after sample_env serving.

Definition second_listener_state : State :=
  Eval vm_compute in state_after busy_env second_listener.

(** ** Executions as sequences of states *)

(** The states an execution passes through, up to the first action that
    cannot move. *)
Fixpoint trace (env : Env) (sched : list Action) (s : State) : list State :=
  s :: match sched with
       | [] => []
       | a :: sched' =>
           match step env a s with
           | Some s' => trace env sched' s'
           | None => []
           end
       end.

(** How often the lifetime context goes from live to done. *)
Fixpoint cancellations (tr : list State) : nat :=
  match tr with
  | s1 :: tr' =>
      match tr' with
      | s2 :: _ =>
          (if negb (Ctx.ctx_done (ctx s1)) && Ctx.ctx_done (ctx s2)
           then 1 else 0) + cancellations tr'
      | [] => 0
      end
  | [] => 0
  end.

(** The moves of watcher [j] in a schedule. *)
Fixpoint watcher_moves (j : nat) (sched : list Action) : nat :=
  match sched with
  | [] => 0
  | AWatcher k :: sched' =>
      (if Nat.eqb k j then 1 else 0) + watcher_moves j sched'
  | _ :: sched' => watcher_moves j sched'
  end.

(** The statements watcher [j] has behind it. *)
Definition progress (j : nat) (s : State) : nat :=
  match watchers s !! j with
  | Some (WRecv _) => 0
  | Some (WLog _) => 1
  | Some WCancel => 2
  | Some WDone | None => 3
  end.

(** Watcher [j] exists, and while it is still blocked in its receive the
    channel it reads holds a value. *)
Definition armed (j : nat) (s : State) : Prop :=
  exists w, watchers s !! j = Some w /\
    forall i, w = WRecv i ->
      exists l, listeners s !! i = Some l /\ is_Some (Chan.buf (errCh l)).

(** After startup, with watcher [j] armed. *)
Record InvFanIn (j : nat) (s : State) : Prop := mkInvFanIn {
  fi_listen : InvListen s;
  fi_exit : InvExit s;
  fi_started : 16 <= stage (pc s);
  fi_armed : armed j s
}.

(** The sample listener reports an error while the process serves. *)
Definition failing : list Action :=
  serving ++ [AServeErr 0 (Some "serve: use of closed network connection")].

Definition failing_state : State :=
  Eval vm_compute in state_after sample_env failing.

(** ** Calls of [cancel()] in an execution *)

(** The action executes a [cancel()] statement: a watcher at its last
    statement, or [main] returning from its wait, whose deferred [cancel()]
    then runs. *)
Definition is_cancel_call (a : Action) (s : State) : bool :=
  match a with
  | AWatcher j =>
      match watchers s !! j with
      | Some WCancel => true
      | _ => false
      end
  | AMain =>
      match pc s with
      | PcWait => true
      | _ => false
      end
  | _ => false
  end.

(** The number of [cancel()] calls along an execution. *)
Fixpoint cancel_calls (env : Env) (sched : list Action) (s : State) : nat :=
  match sched with
  | [] => 0
  | a :: sched' =>
      match step env a s with
      | Some s' =>
          (if is_cancel_call a s then 1 else 0) + cancel_calls env sched' s'
      | None => 0
      end
  end.

(** Two listen addresses, both bound; both listeners fail while serving and
    both watchers have logged and stand before their [cancel()]. *)
Definition pair_config : Config :=
  mkConfig (EmbeddedConfig sample_config)
           ["tcp://10.0.0.1:5002"; "unix:///listen.on.socket"]
           (MaxTokenLifetime sample_config)
           (RegistryServerPolicies sample_config)
           (RegistryClientPolicies sample_config) (LogLevel sample_config)
           (OpenTelemetryEndpoint sample_config)
           (MetricsExportInterval sample_config) false
           (PprofListenOn sample_config) (KubeletQPS sample_config).

Definition pair_env : Env :=
  mkEnv None None (Ok pair_config) (fun _ => Ok InfoLevel) false None
        (Ok sample_source) (Ok 7) (fun _ _ => None).

Definition both_failed : list Action :=
  startup ++ repeat AMain 5
  ++ [AServeErr 0 (Some "serve: use of closed network connection");
      AServeErr 1 (Some "accept unix: use of closed network connection");
      AWatcher 0; AWatcher 1; AWatcher 0; AWatcher 1].

Definition both_failed_state : State :=
  Eval vm_compute in state_after pair_env both_failed.

(** * Further properties of [main] and [exitOnErr] *)

(** ** An address that cannot be bound

    The states [main] can be in when the bind of address [k] fails with
    [e]: it has not passed the check of listener [k], whose channel holds
    the bind error until that check takes it. *)
Definition InvBusy (k : nat) (e : string) (s : State) : Prop :=
  stage (pc s) <= 15 /\
  match pc s with
  | PcListen i => i <= k
  | PcExitOnErr i =>
      i <= k /\
      (i = k -> status s = Running ->
       exists l, listeners s !! k = Some l /\
                 errCh l = Chan.mkChan (Some (Some e)) true)
  | _ => True
  end.

(** ** The logging calls and the context

    [log] records the logging calls; the counts below are counts of calls,
    whatever level logrus is set to. *)

Fixpoint count_log (p : LogEntry -> bool) (l : list LogEntry) : nat :=
  match l with
  | [] => 0
  | e :: l' => (if p e then 1 else 0) + count_log p l'
  end.

(** The call [Infof("Startup completed in %v", ...)]. *)
Definition is_completed (e : LogEntry) : bool :=
  match msg e with MsgStartupCompleted => true | _ => false end.

(** The call [Error(err.Error())] of the deferred telemetry [Close]. *)
Definition is_close (e : LogEntry) : bool :=
  match msg e with MsgOtelClose _ => true | _ => false end.

(** The call [Error(err)] of a watcher, on what it took from its channel. *)
Definition is_listener_error (e : LogEntry) : bool :=
  match lvl e, msg e with
  | ErrorLevel, MsgErr _ => true
  | _, _ => false
  end.

(** The watchers that have made their logging call. *)
Fixpoint reports (ws : list Watcher) : nat :=
  match ws with
  | [] => 0
  | (WCancel | WDone) :: ws' => S (reports ws')
  | _ :: ws' => reports ws'
  end.

(** The level that [logrus.ParseLevel] yields for the configured name. *)
Definition level_of (env : Env) : option Level :=
  match logrus_ParseLevel env (LogLevel (processed env)) with
  | Ok l => Some l
  | Err _ => None
  end.

Record InvLog (env : Env) (s : State) : Prop := mkInvLog {
  lg_completed :
    count_log is_completed (log s)
    = if Nat.leb 16 (stage (pc s)) then 1 else 0;
  lg_close :
    count_log is_close (log s)
    = match pc s with
      | PcReturned =>
          if otel s then
            match otel_Close env with Some _ => 1 | None => 0 end
          else 0
      | _ => 0
      end;
  lg_errors : count_log is_listener_error (log s) = reports (watchers s);
  lg_otel :
    otel s = negb (Nat.leb (stage (pc s)) 4) && opentelemetry_IsEnabled env;
  lg_onsig : onsig s = after 3 (pc s) (level_of env);
  lg_level :
    match onsig s with
    | None => level s = InfoLevel
    | Some l => level s = l \/ level s = TraceLevel
    end;
  lg_registered :
    Ctx.registered (ctx s) = true \/ pc s = PcReturned \/
    exists j, watchers s !! j = Some WDone;
  lg_cancelled : pc s = PcReturned -> ctx s = Ctx.mkCtx true false;
  lg_stopped :
    Ctx.registered (ctx s) = false -> Ctx.ctx_done (ctx s) = true
}.

(** The sample process after its listener failed and [main] returned. *)
Definition async_failure_state : State :=
  Eval vm_compute in state_after sample_env async_failure.

(** The sample environment with telemetry enabled and a failing [Close];
    a terminate signal arrives while serving and [main] returns. *)
Definition otel_env : Env :=
  mkEnv None None (Ok sample_config) (fun _ => Ok InfoLevel) true
        (Some "exporter: context canceled") (Ok sample_source) (Ok 7)
        (fun _ _ => None).

Definition otel_terminated : list Action :=
  serving ++ [ASignal Ctx.SIGTERM; AMain].

Definition otel_terminated_state : State :=
  Eval vm_compute in state_after otel_env otel_terminated.

(** ** The length of startup

    The steps [main] has before it, at most, until it waits on the lifetime
    context: one per statement before the loop, two per address still to be
    started and one to leave the loop. *)
Definition remaining (env : Env) (s : State) : nat :=
  let n := length (ListenOn (processed env)) in
  match pc s with
  | PcListen i => 2 * (n - i) + 1
  | PcExitOnErr i => 2 * (n - i)
  | PcWait | PcReturned => 0
  | p => (15 - stage p) + 2 * n + 1
  end.
(** Destructs the step in [H] into its cases, one per statement and
    outcome. *)
Ltac step_cases H :=
  unfold step, main_step, exitOnErr, watcher_step, signal_step,
    serve_err_step, serve_close_step, main_return in H;
  repeat case_match; simplify_eq.

Lemma InvLocals_init env : InvLocals env init.
Proof. split; reflexivity. Qed.

Lemma InvLocals_step env a s s' :
  InvLocals env s -> step env a s = Some s' -> InvLocals env s'.
Proof.
  intros Hinv H.
  step_cases H.
  all: destruct Hinv as [I1 I2 I3 I4 I5 I6 I7 I8 I9 I10 I11].
  all: split; cbn.
  all: try match goal with E : pc _ = _ |- _ => rewrite ?E in * end.
  all: cbn in I1, I2, I3, I4, I5, I6, I7, I8, I9, I10, I11 |- *.
  all: try done.
  all: unfold chain_of, config_at, dial_of, server_of, tlsClient_of,
         tlsServer_of, source_of, client_of, processed in *; cbn in *.
  all: destruct (envconfig_Process env);
         destruct (workloadapi_NewX509Source env);
         destruct (k8s_NewVersionedClient env); simplify_eq/=;
         first [congruence | by rewrite I7].
Qed.

Lemma run_invariant (P : State -> Prop) env :
  (forall a s s', P s -> step env a s = Some s' -> P s') ->
  forall sched s s', P s -> run env sched s = Some s' -> P s'.
Proof.
  intros Hstep sched. induction sched as [|a sched IH]; intros s s' HP Hrun.
  - cbn in Hrun. by simplify_eq.
  - cbn in Hrun. destruct (step env a s) as [s1|] eqn:E; [|done].
    eapply IH; [|exact Hrun]. eapply Hstep; eauto.
Qed.

Lemma reachable_locals env s : reachable env s -> InvLocals env s.
Proof.
  intros [sched Hrun].
  eapply (run_invariant (InvLocals env)); [|apply InvLocals_init|exact Hrun].
  intros a s0 s1. apply InvLocals_step.
Qed.

Lemma length_set_errCh i c ls : length (set_errCh i c ls) = length ls.
Proof. unfold set_errCh. case_match; [apply length_insert | done]. Qed.

Lemma addr_set_errCh i c ls : addr <$> set_errCh i c ls = addr <$> ls.
Proof.
  unfold set_errCh. destruct (ls !! i) as [l|] eqn:E; [|done].
  rewrite list_fmap_insert. cbn. apply list_insert_id.
  by rewrite list_lookup_fmap, E.
Qed.

Lemma lookup_insert_other {A} (l : list A) j j' w x :
  w <> x -> <[j:=w]> l !! j' = Some x -> l !! j' = Some x.
Proof.
  intros Hne H. apply list_lookup_insert_Some in H.
  destruct H as [(-> & <- & _)|[_ H]]; [done | exact H].
Qed.

Lemma InvListen_init : InvListen init.
Proof. split; cbn; try done; lia. Qed.

Lemma InvListen_step env a s s' :
  InvListen s -> step env a s = Some s' -> InvListen s'.
Proof.
  intros Hinv H.
  step_cases H.
  all: try (cbn in *; congruence).
  all: destruct Hinv as [I1 I2 I3 I4 I5 I6 I7 I8].
  all: split; cbn.
  all: try match goal with E : pc _ = _ |- _ => rewrite ?E in * end.
  all: cbn in I1, I2, I3, I4, I7, I8 |- *.
  all: rewrite ?length_set_errCh, ?addr_set_errCh, ?length_app, ?length_insert.
  all: try done.
  all: try (cbn; lia).
  all: try (intros; apply I8; lia).
  all: try match goal with
         | E : ListenOn _ !! _ = Some _ |- _ =>
             pose proof (lookup_lt_Some _ _ _ E)
         | E : ListenOn _ !! _ = None |- _ =>
             apply lookup_ge_None in E
         end.
  all: try (cbn; lia).
  - (* environment processing: no listener yet *)
    destruct (listeners s); [done | discriminate].
  - (* a listener is started *)
    rewrite fmap_app, I3, I1. cbn.
    replace (i + 1) with (S i) by lia. symmetry. by apply take_S_r.
  - (* a watcher is spawned *)
    intros j i0 [[_ Hj]|[-> [= <-]]]%lookup_snoc_Some; [eauto | lia].
  - intros j [[_ Hj]|[_ [=]]]%lookup_snoc_Some. eauto.
  - intros j0 i0 Hj. eapply I5, lookup_insert_other; [|exact Hj]. done.
  - intros j0 Hj. eapply I6, lookup_insert_other; [|exact Hj]. done.
  - intros j0 i0 Hj. eapply I5, lookup_insert_other; [|exact Hj]. done.
  - intros j0 Hj. eapply I6, lookup_insert_other; [|exact Hj]. done.
  - intros j0 i0 Hj. eapply I5, lookup_insert_other; [|exact Hj]. done.
Qed.

Lemma reachable_listen env s : reachable env s -> InvListen s.
Proof.
  intros [sched Hrun].
  eapply (run_invariant InvListen); [|apply InvListen_init|exact Hrun].
  intros a s0 s1. apply InvListen_step.
Qed.

Lemma fatals_app l1 l2 : fatals (l1 ++ l2) = fatals l1 + fatals l2.
Proof. induction l1 as [|e l1 IH]; cbn; [done | rewrite IH; lia]. Qed.

Lemma InvExit_init : InvExit init.
Proof. by split. Qed.

Lemma InvExit_step env a s s' :
  InvExit s -> step env a s = Some s' -> InvExit s'.
Proof.
  intros Hinv H.
  step_cases H.
  all: try (cbn in *; congruence).
  all: unfold InvExit in *.
  all: match goal with E : status _ = Running |- _ => rewrite E in Hinv end.
  all: destruct Hinv as [I1 I2]; cbn.
  all: try match goal with E : pc _ = _ |- _ => rewrite ?E in * end.
  all: try match goal with
         | E : status ?x = Running |- context [status ?x] => rewrite E
         end.
  all: rewrite ?fatals_app, ?I1; cbn.
  all: try (split; [lia | done]).
  all: try (right; done).
  all: try (left; done).
Qed.

Lemma reachable_exit env s : reachable env s -> InvExit s.
Proof.
  intros [sched Hrun].
  eapply (run_invariant InvExit); [|apply InvExit_init|exact Hrun].
  intros a s0 s1. apply InvExit_step.
Qed.

(** * The exit code *)

Lemma main_fatal env s m :
  status s = Running -> fatal_at env s = Some m ->
  exists s', step env AMain s = Some s' /\ status s' = Exited 1 /\
             log s' = log s ++ [mkEntry FatalLevel m].
Proof.
  intros Hrun Hf. unfold step. rewrite Hrun.
  unfold main_step, exitOnErr, fatal_at in *.
  destruct (pc s); try discriminate.
  all: repeat case_match; simplify_eq; eauto.
Qed.

Lemma exit_only_by_main env a s s' c :
  step env a s = Some s' -> status s' = Exited c ->
  a = AMain /\
  ((c = 1%Z /\ exists m, fatal_at env s = Some m) \/
   (c = 0%Z /\ fatal_at env s = None /\ pc s = PcWait /\
    Ctx.ctx_done (ctx s) = true)).
Proof.
  intros H Hc. unfold fatal_at.
  step_cases H.
  all: try (cbn in *; congruence).
  all: cbn in Hc; simplify_eq.
  all: split; [done|].
  all: first [by left; eauto | by right].
Qed.

(** C1, as the code has it: from every reachable running state, a fatal
    condition at [main]'s next statement (a failing startup call, or an error
    already in the channel at [exitOnErr]'s check) makes [main] log it at
    Fatal level and exit with code 1; the process exits by [main] alone, with
    code 1 on such a condition and otherwise with code 0, when [main] returns
    from waiting on the done lifetime context without any Fatal entry; and
    [main] does return with code 0 once it waits and the context is done,
    whatever marked it done. *)
Theorem exit_code_fatal_or_return env sched s :
  run env sched init = Some s -> status s = Running ->
  (forall m, fatal_at env s = Some m ->
     exists s', step env AMain s = Some s' /\ status s' = Exited 1 /\
                log s' = log s ++ [mkEntry FatalLevel m]) /\
  (forall a s' c, step env a s = Some s' -> status s' = Exited c ->
     a = AMain /\
     ((c = 1%Z /\ exists m, fatal_at env s = Some m) \/
      (c = 0%Z /\ fatal_at env s = None /\ pc s = PcWait /\
       Ctx.ctx_done (ctx s) = true /\ fatals (log s') = 0))) /\
  (pc s = PcWait -> Ctx.ctx_done (ctx s) = true ->
     exists s', step env AMain s = Some s' /\ status s' = Exited 0).
Proof.
  intros Hrun Hst. split; [|split].
  - intros m. by apply main_fatal.
  - intros a s' c Hstep Hc.
    destruct (exit_only_by_main _ _ _ _ _ Hstep Hc) as [-> Hcases].
    split; [done|]. destruct Hcases as [?|(-> & ? & ? & ?)]; [by left|right].
    repeat split; try done.
    assert (Hinv : InvExit s') by
      (apply (reachable_exit env); exists (sched ++ [AMain]);
       clear -Hrun Hstep; revert Hrun; generalize init;
       induction sched as [|b sched IH]; intros s0 Hrun; cbn in *;
       [by simplify_eq; rewrite Hstep
       | destruct (step env b s0); [by apply IH | done]]).
    unfold InvExit in Hinv. rewrite Hc in Hinv.
    destruct Hinv as [(_ & _ & ?)|(? & _)]; [done | lia].
  - intros Hpc Hdone. unfold step, main_step. rewrite Hst, Hpc, Hdone.
    eexists. split; [done|]. reflexivity.
Qed.

(** Three addresses, the second in use: [main] exits with code 1 at the
    second call of [exitOnErr]. *)
Lemma exit_code_fatal_or_return_witness :
  run busy_env second_listener init = Some second_listener_state /\
  status second_listener_state = Running /\
  exists s', step busy_env AMain second_listener_state = Some s' /\
    status s' = Exited 1 /\
    log s' = log second_listener_state
             ++ [mkEntry FatalLevel
                   (MsgErr (Some "bind: address already in use"))].
Proof.
  assert (H1 : run busy_env second_listener init = Some second_listener_state)
    by (vm_compute; reflexivity).
  assert (H2 : status second_listener_state = Running) by reflexivity.
  split; [exact H1|]. split; [exact H2|].
  apply (proj1 (exit_code_fatal_or_return _ _ _ H1 H2)).
  vm_compute. reflexivity.
Defined.

(** C1 as stated fails for an asynchronous listener error: the listener's
    error is delivered, received by its watcher and logged at Error level,
    the watcher cancels the context, [main] returns, and the process exits
    with code 0. *)
Lemma async_listener_error_exits_zero :
  exists s, run sample_env async_failure init = Some s /\
    In (AServeErr 0 (Some "serve: use of closed network connection"))
       async_failure /\
    In (mkEntry ErrorLevel
          (MsgErr (Some "serve: use of closed network connection"))) (log s) /\
    status s = Exited 0.
Proof.
  eexists. split; [vm_compute; reflexivity|].
  split; [|split; [|reflexivity]].
  - vm_compute. do 18 right. by left.
  - vm_compute. do 3 right. by left.
Qed.

(** * The configuration record *)

Lemma reachable_run env sched s : run env sched init = Some s -> reachable env s.
Proof. intros H. by exists sched. Qed.

(** C2, as the code has it: after environment processing produced [c0],
    every field that [envconfig] fills keeps its value for the rest of the
    execution; up to the statement that adjusts the configuration the record
    is [c0] itself, and from there on it is [c0] with [ClientSet] set to the
    Kubernetes client and [ChainCtx] set to the lifetime context, the two
    fields that [main] assigns before it hands the embedded record to
    [registryk8s.NewServer]. *)
Theorem config_only_adjusted env sched s c0 :
  run env sched init = Some s ->
  envconfig_Process env = Ok c0 ->
  2 < stage (pc s) ->
  (EnvFields (EmbeddedConfig (config s)) = EnvFields (EmbeddedConfig c0) /\
   ListenOn (config s) = ListenOn c0 /\
   MaxTokenLifetime (config s) = MaxTokenLifetime c0 /\
   RegistryServerPolicies (config s) = RegistryServerPolicies c0 /\
   RegistryClientPolicies (config s) = RegistryClientPolicies c0 /\
   LogLevel (config s) = LogLevel c0 /\
   OpenTelemetryEndpoint (config s) = OpenTelemetryEndpoint c0 /\
   MetricsExportInterval (config s) = MetricsExportInterval c0 /\
   PprofEnabled (config s) = PprofEnabled c0 /\
   PprofListenOn (config s) = PprofListenOn c0 /\
   KubeletQPS (config s) = KubeletQPS c0) /\
  (stage (pc s) <= 13 -> config s = c0) /\
  (13 < stage (pc s) ->
     exists cl, k8s_NewVersionedClient env = Ok cl /\
       config s = set_ChainCtx CtxLifetime (set_ClientSet cl c0)) /\
  (forall ch, chain s = Some ch ->
     exists cl, k8s_NewVersionedClient env = Ok cl /\
       chain_config ch =
         mkK8sConfig (EnvFields (EmbeddedConfig c0)) (Some CtxLifetime)
                     (Some cl) /\
       chain_token_lifetime ch = MaxTokenLifetime c0 /\
       chain_server_policies ch = RegistryServerPolicies c0 /\
       chain_client_policies ch = RegistryClientPolicies c0).
Proof.
  intros Hrun Hc0 Hstage.
  destruct (reachable_locals _ _ (reachable_run _ _ _ Hrun))
    as [_ _ _ _ _ _ Hcfg Hchain _ _ Hconn].
  unfold after, chain_of, config_at, client_of, processed in *.
  rewrite Hc0 in *. cbn in Hchain.
  destruct (Nat.leb_spec (stage (pc s)) 2) as [?|_]; [lia|].
  destruct (Nat.leb_spec (stage (pc s)) 12) as [H12|H12];
    destruct (Nat.leb_spec (stage (pc s)) 13) as [H13|H13];
    destruct (Nat.leb_spec (stage (pc s)) 14) as [H14|H14]; try lia.
  all: cbn in Hconn.
  all: destruct (k8s_NewVersionedClient env) as [cl|] eqn:Ecl; try done.
  all: rewrite Hcfg; cbn.
  all: repeat split; try done; try lia.
  all: try (intros _; by exists cl).
  all: try (intros ch Hch; rewrite Hchain in Hch; done).
  intros ch Hch. rewrite Hchain in Hch. exists cl. split; [done|].
  repeat case_match; by simplify_eq.
Qed.

(** The sample execution up to the first listener. *)
Lemma config_only_adjusted_witness :
  config (state_after sample_env startup)
  = set_ChainCtx CtxLifetime (set_ClientSet 7 sample_config).
Proof.
  assert (H1 : run sample_env startup init
               = Some (state_after sample_env startup))
    by (vm_compute; reflexivity).
  assert (H2 : envconfig_Process sample_env = Ok sample_config)
    by reflexivity.
  assert (H3 : 2 < stage (pc (state_after sample_env startup)))
    by (vm_compute; lia).
  destruct (config_only_adjusted _ _ _ _ H1 H2 H3) as (_ & _ & H & _).
  destruct H as (cl & Hcl & ->); [vm_compute; lia|].
  vm_compute in Hcl. by simplify_eq.
Defined.

(** C2 as stated fails: environment processing leaves [ClientSet] and
    [ChainCtx] empty, and the record that reaches [registryk8s.NewServer]
    carries the client and the lifetime context. *)
Lemma config_mutated_before_chain :
  exists s ch,
    run sample_env startup init = Some s /\
    envconfig_Process sample_env = Ok sample_config /\
    chain s = Some ch /\
    ClientSet (EmbeddedConfig sample_config) = None /\
    ClientSet (chain_config ch) = Some 7 /\
    ChainCtx (EmbeddedConfig sample_config) = None /\
    ChainCtx (chain_config ch) = Some CtxLifetime /\
    config s <> sample_config.
Proof.
  do 2 eexists. split; [vm_compute; reflexivity|].
  repeat split. vm_compute. discriminate.
Qed.

(** * Identity and TLS *)

Lemma tls_from_source env s cc sc :
  InvLocals env s -> tlsClient s = Some cc -> tlsServer s = Some sc ->
  exists src,
    workloadapi_NewX509Source env = Ok src /\ source s = Some src /\
    cc = TLS.set_MinVersion TLS.VersionTLS12
           (TLS.MTLSClientConfig src src TLS.AuthorizeAny) /\
    sc = TLS.set_MinVersion TLS.VersionTLS12
           (TLS.MTLSServerConfig src src TLS.AuthorizeAny).
Proof.
  intros [Hsrc Hcc Hsc _ _ _ _ _ _ _ _] Ecc Esc.
  unfold after, tlsClient_of, tlsServer_of, source_of in *.
  destruct (Nat.leb_spec (stage (pc s)) 8); [congruence|].
  destruct (Nat.leb_spec (stage (pc s)) 9); [congruence|].
  destruct (Nat.leb_spec (stage (pc s)) 6); [lia|].
  destruct (workloadapi_NewX509Source env) as [src|]; [|congruence].
  exists src. repeat split; congruence.
Qed.

(** C7: in every reachable state where both TLS configurations exist, they
    are built from the one X.509 source that the workload API returned, each
    presents an SVID of that source and verifies its peer against the
    source's bundle (the server requiring a client certificate), each has
    minimum version TLS 1.2, and they are the credentials of the gRPC server
    and of the client dial options. *)
Theorem tls_configs_mutual_tls12 env sched s cc sc :
  run env sched init = Some s ->
  tlsClient s = Some cc -> tlsServer s = Some sc ->
  exists src,
    workloadapi_NewX509Source env = Ok src /\ source s = Some src /\
    TLS.mutual src TLS.AuthorizeAny cc /\
    TLS.mutual src TLS.AuthorizeAny sc /\
    TLS.GetClientCertificate cc = Some src /\
    TLS.GetCertificate sc = Some src /\
    TLS.ClientAuth sc = TLS.RequireAnyClientCert /\
    (TLS.VersionTLS12 <= TLS.MinVersion cc)%Z /\
    (TLS.VersionTLS12 <= TLS.MinVersion sc)%Z /\
    (forall srv, server s = Some srv -> creds srv = sc) /\
    (forall d, dial s = Some d -> transport d = cc).
Proof.
  intros Hrun Ecc Esc.
  pose proof (reachable_locals _ _ (reachable_run _ _ _ Hrun)) as Hinv.
  destruct (tls_from_source _ _ _ _ Hinv Ecc Esc)
    as (src & Henv & Hsrc & -> & ->).
  exists src. split; [done|]. split; [done|].
  unfold TLS.mutual, TLS.presents, TLS.verifies. cbn.
  repeat split; auto; try lia; try (intros ?; congruence).
  - destruct Hinv as [_ _ Hsc Hsrv _ _ _ _ _ _ _].
    intros srv Esrv. unfold after, server_of in Hsrv.
    rewrite Esrv in Hsrv. unfold after in Hsc. rewrite Esc in Hsc.
    destruct (Nat.leb_spec (stage (pc s)) 10); [done|].
    destruct (Nat.leb_spec (stage (pc s)) 9); [lia|].
    rewrite <- Hsc in Hsrv. by simplify_eq.
  - destruct Hinv as [Hs Hcc _ _ Hd _ _ _ _ _ _].
    intros d Ed. unfold after, dial_of in Hd, Hcc.
    rewrite Ed in Hd. rewrite Ecc in Hcc.
    destruct (Nat.leb_spec (stage (pc s)) 11); [done|].
    destruct (Nat.leb_spec (stage (pc s)) 8); [lia|].
    rewrite <- Hcc in Hd. destruct (source_of env); by simplify_eq.
Qed.

(** The client configuration of the sample execution. *)
Lemma tls_configs_mutual_tls12_witness :
  exists src,
    workloadapi_NewX509Source sample_env = Ok src /\
    TLS.GetClientCertificate
      (TLS.set_MinVersion TLS.VersionTLS12
         (TLS.MTLSClientConfig sample_source sample_source TLS.AuthorizeAny))
    = Some src.
Proof.
  assert (H1 : run sample_env startup init
               = Some (state_after sample_env startup))
    by (vm_compute; reflexivity).
  destruct (tls_configs_mutual_tls12 sample_env startup _ _ _ H1
              eq_refl eq_refl) as (src & H & _ & _ & _ & Hc & _).
  exists src. split; [exact H | exact Hc].
Defined.

(** C10: in every reachable state, the client and the server configuration
    carry the verification hook built with [tlsconfig.AuthorizeAny]: the
    peer check passes exactly for the raw certificates that verify against
    the source's bundle, whatever SPIFFE ID they carry. *)
Theorem tls_authorize_any env sched s cfg :
  run env sched init = Some s ->
  tlsClient s = Some cfg \/ tlsServer s = Some cfg ->
  exists src,
    source s = Some src /\
    TLS.VerifyPeerCertificate cfg
    = Some (TLS.WrapVerifyPeerCertificate src TLS.AuthorizeAny) /\
    (forall id, TLS.AuthorizeAny id = None) /\
    (forall raw id, ParseAndVerify src raw = Ok id ->
       TLS.peer_check cfg raw = Some None) /\
    (forall raw, TLS.peer_check cfg raw = Some None ->
       exists id, ParseAndVerify src raw = Ok id).
Proof.
  intros Hrun Hcfg.
  destruct (reachable_locals _ _ (reachable_run _ _ _ Hrun))
    as [Hsrc Hcc Hsc _ _ _ _ _ _ _ _].
  unfold after, tlsClient_of, tlsServer_of in *.
  assert (exists src, source s = Some src /\
            TLS.VerifyPeerCertificate cfg
            = Some (TLS.WrapVerifyPeerCertificate src TLS.AuthorizeAny))
    as (src & Es & Ev).
  { destruct Hcfg as [E|E]; [rewrite E in Hcc | rewrite E in Hsc].
    - destruct (Nat.leb_spec (stage (pc s)) 8); [done|].
      destruct (Nat.leb_spec (stage (pc s)) 6); [lia|].
      destruct (source_of env) as [src|]; [|done].
      exists src. by simplify_eq.
    - destruct (Nat.leb_spec (stage (pc s)) 9); [done|].
      destruct (Nat.leb_spec (stage (pc s)) 6); [lia|].
      destruct (source_of env) as [src|]; [|done].
      exists src. by simplify_eq. }
  exists src. split; [done|]. split; [done|]. split; [done|].
  unfold TLS.peer_check. rewrite Ev. unfold TLS.WrapVerifyPeerCertificate.
  split.
  - intros raw id ->. done.
  - intros raw H. destruct (ParseAndVerify src raw) as [id|]; [eauto|].
    by simplify_eq.
Qed.

(** The server configuration of the sample execution. *)
Lemma tls_authorize_any_witness :
  exists src,
    source (state_after sample_env startup) = Some src /\
    TLS.VerifyPeerCertificate
      (TLS.set_MinVersion TLS.VersionTLS12
         (TLS.MTLSServerConfig sample_source sample_source TLS.AuthorizeAny))
    = Some (TLS.WrapVerifyPeerCertificate src TLS.AuthorizeAny).
Proof.
  assert (H1 : run sample_env startup init
               = Some (state_after sample_env startup))
    by (vm_compute; reflexivity).
  destruct (tls_authorize_any sample_env startup _ _ H1 (or_intror eq_refl))
    as (src & H & Hv & _).
  exists src. split; [exact H | exact Hv].
Defined.

(** * [exitOnErr]: check, then watch *)

(** C3: whenever [main] calls [exitOnErr] for listener [i], the listener's
    channel exists and the call does not block.  An error already in the
    channel is taken by the non-blocking receive: it is logged at Fatal
    level, the process exits with code 1, and no watcher is spawned.  A
    closed and drained channel yields [nil] the same way.  Only when the
    channel is empty and open does [exitOnErr] spawn the watcher, blocked on
    that channel, and return to the loop with nothing logged. *)
Theorem exitOnErr_check_then_watch env sched s i :
  run env sched init = Some s -> status s = Running ->
  pc s = PcExitOnErr i ->
  exists l s',
    listeners s !! i = Some l /\ step env AMain s = Some s' /\
    match Chan.buf (errCh l) with
    | Some err =>
        status s' = Exited 1 /\
        log s' = log s ++ [mkEntry FatalLevel (MsgErr err)] /\
        watchers s' = watchers s
    | None =>
        if Chan.closed (errCh l) then
          status s' = Exited 1 /\
          log s' = log s ++ [mkEntry FatalLevel (MsgErr None)] /\
          watchers s' = watchers s
        else
          status s' = Running /\ log s' = log s /\
          watchers s' = watchers s ++ [WRecv i] /\
          listeners s' = listeners s /\ pc s' = PcListen (S i)
    end.
Proof.
  intros Hrun Hst Hpc.
  destruct (reachable_listen _ _ (reachable_run _ _ _ Hrun))
    as [Hlen _ _ _ _ _ _ _].
  rewrite Hpc in Hlen. cbn in Hlen.
  destruct (lookup_lt_is_Some_2 (listeners s) i) as [l El]; [lia|].
  exists l. unfold step, main_step, exitOnErr, Chan.recv.
  rewrite Hst, Hpc, El.
  destruct (Chan.buf (errCh l)) as [err|]; [|destruct (Chan.closed (errCh l))].
  all: eexists; split; [done|]; split; [reflexivity|]; cbn.
  all: rewrite ?Hst; cbn; done.
Qed.

(** The second of three addresses is in use. *)
Lemma exitOnErr_check_then_watch_witness :
  exists l s',
    listeners second_listener_state !! 1 = Some l /\
    step busy_env AMain second_listener_state = Some s' /\
    Chan.buf (errCh l) = Some (Some "bind: address already in use") /\
    status s' = Exited 1.
Proof.
  assert (H1 : run busy_env second_listener init = Some second_listener_state)
    by (vm_compute; reflexivity).
  destruct (exitOnErr_check_then_watch busy_env second_listener _ 1 H1
              eq_refl eq_refl) as (l & s' & Hl & Hs & H).
  exists l, s'. split; [exact Hl|]. split; [exact Hs|].
  vm_compute in Hl. injection Hl as <-. cbn in H. split; [done | apply H].
Defined.

(** * Cancellation *)

Lemma apply_ops_cancelled ops c :
  Ctx.apply_ops ops (Ctx.cancel c) = Ctx.cancel c.
Proof.
  unfold Ctx.apply_ops. induction ops as [|o ops IH]; [done|].
  destruct o; cbn; exact IH.
Qed.

Lemma apply_ops_app ops1 ops2 c :
  Ctx.apply_ops (ops1 ++ ops2) c = Ctx.apply_ops ops2 (Ctx.apply_ops ops1 c).
Proof. unfold Ctx.apply_ops. apply fold_left_app. Qed.

(** A step that executes [cancel()] leaves the context cancelled. *)
Lemma cancel_call_cancels env a s s' :
  step env a s = Some s' -> is_cancel_call a s = true ->
  ctx s' = Ctx.cancel (ctx s).
Proof.
  intros H Hc. unfold step in H. destruct (status s); [|done].
  destruct a as [|j| | |]; cbn in Hc; try done.
  - unfold main_step in H. destruct (pc s); try done.
    destruct (Ctx.ctx_done (ctx s)); by simplify_eq.
  - unfold watcher_step in H.
    destruct (watchers s !! j) as [[| | |]|]; try done. by simplify_eq.
Qed.

(** No step of any goroutine or of the environment changes a cancelled
    context: a signal is no longer relayed, a further [cancel()] finds it
    cancelled. *)
Lemma cancelled_stable env a s s' :
  step env a s = Some s' -> ctx s = Ctx.mkCtx true false ->
  ctx s' = Ctx.mkCtx true false.
Proof.
  intros H Hc. step_cases H.
  all: try (cbn in *; congruence).
  all: cbn; try done.
  all: rewrite Hc in *; cbn in *; done.
Qed.

Lemma cancelled_run env sched :
  forall s s', run env sched s = Some s' -> ctx s = Ctx.mkCtx true false ->
               ctx s' = Ctx.mkCtx true false.
Proof.
  induction sched as [|a sched IH]; intros s s' Hrun Hc; cbn in Hrun.
  - by simplify_eq.
  - destruct (step env a s) as [s1|] eqn:E; [|done].
    eapply IH; [done|]. by eapply cancelled_stable.
Qed.

Lemma cancel_calls_once env sched :
  forall s s', run env sched s = Some s' -> 1 <= cancel_calls env sched s ->
               ctx s' = Ctx.cancel (ctx s).
Proof.
  induction sched as [|a sched IH]; intros s s' Hrun Hn; cbn in Hrun, Hn.
  - lia.
  - destruct (step env a s) as [s1|] eqn:E; [|done].
    destruct (is_cancel_call a s) eqn:Ec.
    + eapply cancelled_run; [done|]. by eapply cancel_call_cancels.
    + by apply (IH s1).
Qed.

(** Two watchers before their [cancel()] may call it in either order. *)
Lemma cancel_calls_commute env s j k :
  status s = Running -> j <> k ->
  watchers s !! j = Some WCancel -> watchers s !! k = Some WCancel ->
  exists t t1,
    run env [AWatcher j; AWatcher k] s = Some t /\
    run env [AWatcher k; AWatcher j] s = Some t /\
    run env [AWatcher j] s = Some t1 /\
    ctx t = ctx t1 /\ ctx t1 = ctx (call_cancel s) /\
    pc t = pc s /\ log t = log s /\ status t = Running.
Proof.
  intros Hst Hne Hj Hk. cbn.
  unfold step at 1 3 5, watcher_step. rewrite Hst, Hj, Hk.
  unfold step, watcher_step. cbn. rewrite Hst.
  rewrite !list_lookup_insert_ne by done. rewrite Hj, Hk.
  do 2 eexists. split; [done|]. split; [|by repeat split].
  cbn. by rewrite list_insert_insert_ne.
Qed.

(** C5: however often [cancel()] is called along an execution, by the
    watchers and by [main]'s deferred call, and however these calls
    interleave with each other, with signals and with every other step, the
    lifetime context ends as one call leaves it; two watchers standing
    before their [cancel()] reach the same state in either order, with the
    context as after the first call and nothing else of the process
    changed; and on the context alone a repeated call, a further call among
    signal deliveries and a second call on the process state change
    nothing. *)
Theorem cancel_idempotent env (s s' : State) (sched' : list Action)
    (c : Ctx.NotifyCtx) (n : nat) (before between rest : list Ctx.Op) :
  run env sched' s = Some s' ->
  (1 <= cancel_calls env sched' s -> ctx s' = ctx (call_cancel s)) /\
  (forall j k,
     status s' = Running -> j <> k ->
     watchers s' !! j = Some WCancel -> watchers s' !! k = Some WCancel ->
     exists t t1,
       run env [AWatcher j; AWatcher k] s' = Some t /\
       run env [AWatcher k; AWatcher j] s' = Some t /\
       run env [AWatcher j] s' = Some t1 /\
       ctx t = ctx t1 /\ ctx t1 = ctx (call_cancel s') /\
       pc t = pc s' /\ log t = log s' /\ status t = Running) /\
  Ctx.cancel (Ctx.cancel c) = Ctx.cancel c /\
  Nat.iter (S n) Ctx.cancel c = Ctx.cancel c /\
  Ctx.apply_ops (before ++ Ctx.OpCancel :: between ++ Ctx.OpCancel :: rest) c
  = Ctx.apply_ops (before ++ Ctx.OpCancel :: between ++ rest) c /\
  Ctx.apply_ops (before ++ Ctx.OpCancel :: rest) c = Ctx.cancel c /\
  call_cancel (call_cancel s) = call_cancel s.
Proof.
  intros Hrun.
  split; [intros Hn; by eapply cancel_calls_once|].
  split; [intros j k; apply cancel_calls_commute|].
  split; [done|]. split.
  { induction n as [|n IH]; [done|]. cbn in *. by rewrite IH. }
  assert (Hone : forall l, Ctx.apply_ops (before ++ Ctx.OpCancel :: l) c
                           = Ctx.cancel c).
  { intros l. rewrite apply_ops_app.
    change (Ctx.apply_ops (Ctx.OpCancel :: l) ?x)
      with (Ctx.apply_ops l (Ctx.cancel x)).
    by rewrite apply_ops_cancelled. }
  split; [by rewrite !Hone|]. split; [apply Hone | done].
Qed.

(** Both listeners have failed: the two watchers and the deferred call of
    [main] cancel three times, and the context is as after one call. *)
Lemma cancel_idempotent_witness :
  exists s',
    run pair_env [AWatcher 1; AWatcher 0; AMain] both_failed_state = Some s' /\
    cancel_calls pair_env [AWatcher 1; AWatcher 0; AMain] both_failed_state
    = 3 /\
    ctx s' = ctx (call_cancel both_failed_state).
Proof.
  eexists. split; [vm_compute; reflexivity|]. split; [reflexivity|].
  eapply (proj1 (cancel_idempotent pair_env both_failed_state _
                   [AWatcher 1; AWatcher 0; AMain] Ctx.NotifyContext 0
                   [] [] [] _)).
  vm_compute. lia.
  Unshelve. vm_compute. reflexivity.
Defined.

(** * Termination signals *)




(** * Starting the listeners *)

Lemma run_app env l1 l2 s :
  run env (l1 ++ l2) s
  = match run env l1 s with
    | Some s1 => run env l2 s1
    | None => None
    end.
Proof.
  revert s. induction l1 as [|a l1 IH]; intros s; cbn; [done|].
  destruct (step env a s); [apply IH | done].
Qed.

Lemma reachable_from env sched s sched' s' :
  run env sched init = Some s -> run env sched' s = Some s' ->
  reachable env s'.
Proof.
  intros H1 H2. exists (sched ++ sched'). by rewrite run_app, H1.
Qed.

(** One turn of the loop when the address binds. *)
Lemma loop_iteration env s i a :
  status s = Running -> pc s = PcListen i -> length (listeners s) = i ->
  ListenOn (config s) !! i = Some a -> net_Listen env i a = None ->
  exists s',
    run env [AMain; AMain] s = Some s' /\ status s' = Running /\
    pc s' = PcListen (S i) /\
    listeners s' = listeners s ++ [mkListener a Chan.make] /\
    watchers s' = watchers s ++ [WRecv i] /\
    config s' = config s /\ log s' = log s /\ ctx s' = ctx s.
Proof.
  intros Hst Hpc Hlen Ha Hbind.
  cbn. unfold step at 1, main_step. rewrite Hst, Hpc, Ha.
  unfold ListenAndServe. rewrite Hbind.
  unfold step, main_step, exitOnErr. cbn. rewrite Hst.
  rewrite lookup_app_r by lia. rewrite Hlen, Nat.sub_diag. cbn.
  rewrite Hst. eexists. split; [done|]. by repeat split.
Qed.

Lemma loop_runs env rest :
  forall s i,
    status s = Running -> pc s = PcListen i -> length (listeners s) = i ->
    drop i (ListenOn (config s)) = rest ->
    (forall k a, ListenOn (config s) !! k = Some a ->
                 net_Listen env k a = None) ->
    exists s',
      run env (repeat AMain (2 * length rest + 1)) s = Some s' /\
      status s' = Running /\ pc s' = PcWait /\
      listeners s'
      = listeners s ++ ((fun a => mkListener a Chan.make) <$> rest) /\
      watchers s' = watchers s ++ (WRecv <$> seq i (length rest)) /\
      log s' = log s ++ [mkEntry InfoLevel MsgStartupCompleted] /\
      ctx s' = ctx s /\ config s' = config s.
Proof.
  induction rest as [|a rest IH]; intros s i Hst Hpc Hlen Hdrop Hbind.
  - assert (ListenOn (config s) !! i = None) as Hnone.
    { apply lookup_ge_None. apply (f_equal length) in Hdrop.
      rewrite length_drop in Hdrop. cbn in Hdrop. lia. }
    cbn. unfold step, main_step. rewrite Hst, Hpc, Hnone.
    eexists. split; [done|]. cbn. rewrite !app_nil_r. by repeat split.
  - assert (ListenOn (config s) !! i = Some a) as Ha.
    { rewrite <- (Nat.add_0_r i), <- lookup_drop, Hdrop. done. }
    destruct (loop_iteration env s i a Hst Hpc Hlen Ha (Hbind _ _ Ha))
      as (s1 & Hrun1 & Hst1 & Hpc1 & Hl1 & Hw1 & Hc1 & Hlog1 & Hctx1).
    destruct (IH s1 (S i)) as (s' & Hrun & ? & ? & Hl & Hw & Hlog & ? & ?);
      try done.
    + rewrite Hl1, length_app. cbn. lia.
    + rewrite Hc1. rewrite (drop_S _ _ _ Ha) in Hdrop. by simplify_eq.
    + by rewrite Hc1.
    + exists s'. split.
      { replace (2 * length (a :: rest) + 1)
          with (2 + (2 * length rest + 1)) by (cbn; lia).
        rewrite repeat_app, run_app.
        change (repeat AMain 2) with [AMain; AMain]. by rewrite Hrun1. }
      rewrite Hl, Hw, Hlog, Hl1, Hw1, Hlog1, <- !app_assoc. cbn.
      repeat split; try done; congruence.
Qed.

Lemma main_free_in_loop env s :
  InvListen s -> status s = Running -> stage (pc s) = 15 ->
  is_Some (step env AMain s).
Proof.
  intros [Hlen _ _ _ _ _ _ _] Hst Hstage.
  unfold step, main_step, exitOnErr. rewrite Hst.
  destruct (pc s) as [| | | | | | | | | | | | | | |i|i| |] eqn:Hpc;
    try discriminate.
  - case_match; eauto.
  - cbn in Hlen.
    destruct (lookup_lt_is_Some_2 (listeners s) i) as [l ->]; [lia|].
    repeat case_match; eauto; simplify_eq.
Qed.

(** C8: from the state in which [main] enters the loop over a non-empty
    list of addresses none of which fails to bind, [main] reaches the wait on
    the lifetime context by steps of its own alone, two per address and one
    for the loop exit, without any move of a listener, a watcher or the
    environment; every address then has a listener with an error channel of
    its own, still empty and open, and watcher [j] waits on channel [j].  And
    however the other goroutines interleave, [main] is never blocked inside
    the loop. *)
Theorem listeners_start_without_blocking env sched s :
  run env sched init = Some s -> status s = Running -> pc s = PcListen 0 ->
  ListenOn (config s) <> [] ->
  (forall k a, ListenOn (config s) !! k = Some a ->
               net_Listen env k a = None) ->
  (exists s',
     run env (repeat AMain (2 * length (ListenOn (config s)) + 1)) s
     = Some s' /\
     status s' = Running /\ pc s' = PcWait /\
     listeners s'
     = (fun a => mkListener a Chan.make) <$> ListenOn (config s) /\
     watchers s' = WRecv <$> seq 0 (length (ListenOn (config s))) /\
     ctx s' = ctx s) /\
  (forall sched' s'',
     run env sched' s = Some s'' -> status s'' = Running ->
     stage (pc s'') = 15 -> is_Some (step env AMain s'')).
Proof.
  intros Hrun Hst Hpc _ Hbind. split.
  - destruct (reachable_listen _ _ (reachable_run _ _ _ Hrun))
      as [Hlen _ _ Hw _ _ _ _].
    rewrite Hpc in Hlen, Hw. cbn in Hlen, Hw.
    destruct (loop_runs env (ListenOn (config s)) s 0)
      as (s' & Hrun' & ? & ? & Hl & Hw' & _ & ? & _); try done.
    exists s'. split; [done|].
    destruct (listeners s); [|done]. destruct (watchers s); [|done].
    by repeat split.
  - intros sched' s'' Hrun' Hst' Hstage.
    apply main_free_in_loop; try done.
    eapply reachable_listen, reachable_from; eauto.
Qed.

(** The sample configuration: one address, bound at once. *)
Lemma listeners_start_without_blocking_witness :
  exists s',
    run sample_env [AMain; AMain; AMain] (state_after sample_env startup)
    = Some s' /\ pc s' = PcWait /\ watchers s' = [WRecv 0].
Proof.
  assert (H1 : run sample_env startup init
               = Some (state_after sample_env startup))
    by (vm_compute; reflexivity).
  assert (H2 : ListenOn (config (state_after sample_env startup)) <> [])
    by (vm_compute; discriminate).
  assert (H3 : forall k a,
             ListenOn (config (state_after sample_env startup)) !! k = Some a
             -> net_Listen sample_env k a = None) by (intros; reflexivity).
  destruct (listeners_start_without_blocking sample_env startup _ H1
              eq_refl eq_refl H2 H3)
    as [(s' & Hr & _ & Hp & _ & Hw & _) _].
  exists s'. split; [exact Hr|]. split; [exact Hp | exact Hw].
Defined.

(** * Order of startup *)

Lemma chain_built_by env a s s' :
  step env a s = Some s' -> chain s = None -> chain s' <> None ->
  a = AMain /\ pc s = PcNewServer /\ pc s' = PcListen 0 /\
  listeners s' = listeners s.
Proof.
  intros H Hnone Hsome. step_cases H.
  all: try (cbn in *; congruence).
  all: cbn in Hsome; try congruence.
  done.
Qed.

Lemma listener_started_by env a s s' :
  step env a s = Some s' -> length (listeners s) < length (listeners s') ->
  a = AMain /\
  exists i address,
    pc s = PcListen i /\ ListenOn (config s) !! i = Some address /\
    listeners s'
    = listeners s ++ [mkListener address (ListenAndServe env i address)].
Proof.
  intros H Hlt. step_cases H.
  all: try (cbn in *; congruence).
  all: cbn in Hlt; rewrite ?length_set_errCh in Hlt; try lia.
  split; [done|]. eauto.
Qed.

(** C9: in every reachable state, a constructed chain comes with the X.509
    source and both TLS configurations, and a started listener comes with
    the constructed chain; the step that constructs the chain starts from a
    state that already holds the source and both TLS configurations and ends
    in one without any listener; a step that starts a listener starts from a
    state that already holds the chain, and the listener it adds is the one
    for the next address of the configured list, so that the listeners
    started so far are, in order, a prefix of that list. *)
Theorem startup_order env sched s :
  run env sched init = Some s ->
  (is_Some (chain s) ->
     is_Some (source s) /\ is_Some (tlsClient s) /\ is_Some (tlsServer s)) /\
  (listeners s <> [] -> is_Some (chain s)) /\
  addr <$> listeners s = take (length (listeners s)) (ListenOn (config s)) /\
  (forall a s',
     step env a s = Some s' -> chain s = None -> is_Some (chain s') ->
     is_Some (source s) /\ is_Some (tlsClient s) /\ is_Some (tlsServer s) /\
     listeners s' = []) /\
  (forall a s',
     step env a s = Some s' -> length (listeners s) < length (listeners s') ->
     is_Some (chain s) /\
     exists address,
       ListenOn (config s) !! length (listeners s) = Some address /\
       listeners s'
       = listeners s
         ++ [mkListener address
               (ListenAndServe env (length (listeners s)) address)]).
Proof.
  intros Hrun.
  pose proof (reachable_locals _ _ (reachable_run _ _ _ Hrun)) as HL.
  pose proof (reachable_listen _ _ (reachable_run _ _ _ Hrun)) as HW.
  assert (Hset : 14 <= stage (pc s) -> is_Some (chain_of env) ->
                 is_Some (source s) /\ is_Some (tlsClient s) /\
                 is_Some (tlsServer s)).
  { intros Hst Hch. destruct HL as [Hs Hc Hv _ _ _ _ _ _ _ _].
    rewrite Hs, Hc, Hv. unfold after.
    destruct (Nat.leb_spec (stage (pc s)) 6); [lia|].
    destruct (Nat.leb_spec (stage (pc s)) 8); [lia|].
    destruct (Nat.leb_spec (stage (pc s)) 9); [lia|].
    unfold chain_of, tlsClient_of, tlsServer_of in *.
    destruct (source_of env); [eauto | by destruct Hch]. }
  assert (Hchain : 14 < stage (pc s) -> is_Some (chain s)).
  { intros Hst. destruct HL as [_ _ _ _ _ _ _ Hch _ Hid Hcl].
    rewrite Hch. unfold after.
    destruct (Nat.leb_spec (stage (pc s)) 14); [lia|].
    destruct (Nat.leb_spec (stage (pc s)) 6); [lia|].
    destruct (Nat.leb_spec (stage (pc s)) 12); [lia|].
    cbn in Hid, Hcl.
    unfold chain_of, dial_of, server_of, tlsClient_of, tlsServer_of,
      source_of.
    destruct (workloadapi_NewX509Source env); [|done]. eauto. }
  assert (Hstarted : listeners s <> [] -> 14 < stage (pc s)).
  { intros Hne. destruct HW as [Hlen _ _ _ _ _ _ _].
    destruct (listeners s) as [|l ls]; [done|]. cbn in Hlen.
    destruct (pc s); cbn in *; (lia || discriminate). }
  split; [|split; [|split; [|split]]].
  - intros Hch. destruct HL as [_ _ _ _ _ _ _ Ech _ _ _].
    rewrite Ech in Hch. unfold after in Hch.
    destruct (Nat.leb_spec (stage (pc s)) 14); [by destruct Hch|].
    apply Hset; [lia | done].
  - intros Hne. auto.
  - by destruct HW.
  - intros a s' Hstep Hnone Hsome.
    destruct (chain_built_by _ _ _ _ Hstep Hnone) as (-> & Hpc & Hpc' & Hl).
    { by destruct Hsome as [? ->]. }
    assert (HL' : InvLocals env s') by (eapply InvLocals_step; eauto).
    destruct HL' as [_ _ _ _ _ _ _ Ech' _ _ _].
    rewrite Ech', Hpc' in Hsome. cbn in Hsome.
    destruct Hset as (? & ? & ?); [rewrite Hpc; cbn; lia | done |].
    repeat split; try done.
    rewrite Hl. destruct HW as [Hlen _ _ _ _ _ _ _].
    rewrite Hpc in Hlen. cbn in Hlen. by destruct (listeners s).
  - intros a s' Hstep Hlt.
    destruct (listener_started_by _ _ _ _ Hstep Hlt)
      as (-> & i & address & Hpc & Ha & Hl).
    destruct HW as [Hlen _ _ _ _ _ _ _]. rewrite Hpc in Hlen. cbn in Hlen.
    split; [apply Hchain; rewrite Hpc; cbn; lia|].
    exists address. by rewrite Hlen.
Qed.

(** The sample execution between the first listener's start and its
    check. *)
Lemma startup_order_witness :
  is_Some (chain (state_after sample_env (startup ++ [AMain]))) /\
  addr <$> listeners (state_after sample_env (startup ++ [AMain]))
  = ["unix:///listen.on.socket"].
Proof.
  assert (H1 : run sample_env (startup ++ [AMain]) init
               = Some (state_after sample_env (startup ++ [AMain])))
    by (vm_compute; reflexivity).
  destruct (startup_order sample_env _ _ H1) as (_ & Hc & Ha & _).
  split; [apply Hc; vm_compute; discriminate|].
  rewrite Ha. vm_compute. reflexivity.
Defined.

(** * Fan-in of the listeners' errors *)

Lemma set_errCh_lookup_ne i k c ls : i <> k -> set_errCh i c ls !! k = ls !! k.
Proof.
  intros Hne. unfold set_errCh. case_match; [|done].
  by apply list_lookup_insert_ne.
Qed.

Lemma set_errCh_lookup_eq i c ls l :
  ls !! i = Some l -> set_errCh i c ls !! i = Some (mkListener (addr l) c).
Proof.
  intros H. unfold set_errCh. rewrite H.
  apply list_lookup_insert_eq. by eapply lookup_lt_Some.
Qed.

Lemma done_mono env a s s' :
  step env a s = Some s' -> Ctx.ctx_done (ctx s) = true ->
  Ctx.ctx_done (ctx s') = true.
Proof.
  intros H Hd. step_cases H.
  all: try (cbn in *; congruence).
Qed.

Lemma cancellations_cons env sched s s' :
  cancellations (s :: trace env sched s')
  = (if negb (Ctx.ctx_done (ctx s)) && Ctx.ctx_done (ctx s') then 1 else 0)
    + cancellations (trace env sched s').
Proof. by destruct sched. Qed.

Lemma cancellations_done env sched :
  forall s, Ctx.ctx_done (ctx s) = true ->
            cancellations (trace env sched s) = 0.
Proof.
  induction sched as [|a sched IH]; intros s Hd; [done|].
  cbn [trace]. destruct (step env a s) as [s'|] eqn:E; [|done].
  rewrite cancellations_cons, Hd. cbn.
  apply IH. by eapply done_mono.
Qed.

Lemma cancellations_once env sched :
  forall s, cancellations (trace env sched s) <= 1.
Proof.
  induction sched as [|a sched IH]; intros s; [cbn; lia|].
  cbn [trace]. destruct (step env a s) as [s'|] eqn:E; [|cbn; lia].
  rewrite cancellations_cons.
  destruct (Ctx.ctx_done (ctx s')) eqn:Hd'.
  - rewrite (cancellations_done env sched s' Hd'). case_match; lia.
  - rewrite andb_false_r. specialize (IH s'). lia.
Qed.

Lemma stage_mono env a s s' :
  step env a s = Some s' -> stage (pc s) <= stage (pc s').
Proof.
  intros H. step_cases H.
  all: try (cbn in *; congruence).
  all: cbn; try match goal with E : pc _ = _ |- _ => rewrite ?E end; cbn; lia.
Qed.

Lemma InvFanIn_step env j a s s' :
  InvFanIn j s -> step env a s = Some s' ->
  InvFanIn j s' /\ progress j s' = progress j s + watcher_moves j [a].
Proof.
  intros [HW HE Hst Harm] H.
  pose proof (InvListen_step _ _ _ _ HW H) as HW'.
  pose proof (InvExit_step _ _ _ _ HE H) as HE'.
  pose proof (stage_mono _ _ _ _ H) as Hst'.
  enough (armed j s' /\ progress j s' = progress j s + watcher_moves j [a])
    as [? ?] by (split; [split; [done..|lia|done] | done]).
  clear HW' HE' Hst'.
  destruct HW as [_ _ _ _ Hown _ _ _]. clear HE.
  destruct Harm as (w & Hw & Hch).
  step_cases H.
  all: try (cbn in *; congruence).
  all: try (cbn in Hst; lia).
  all: unfold armed, progress; cbn.
  all: try (split; [eauto | lia]).
  - (* a watcher receives *)
    match goal with
    | E : watchers s !! ?k = Some (WRecv ?c) |- _ =>
        pose proof (Hown _ _ E) as ->; rename E into Hk
    end.
    destruct (decide (j0 = j)) as [->|Hne].
    + rewrite list_lookup_insert_eq by (by eapply lookup_lt_Some).
      rewrite Hk, Nat.eqb_refl. split; [|done].
      eexists. split; [done|]. by intros i [=].
    + rewrite list_lookup_insert_ne by done.
      apply Nat.eqb_neq in Hne as Hne'. rewrite Hne'. split; [|lia].
      exists w. split; [done|]. intros i ->.
      pose proof (Hown _ _ Hw) as ->.
      rewrite set_errCh_lookup_ne by done. by apply Hch.
  - (* a watcher logs *)
    destruct (decide (j0 = j)) as [->|Hne].
    + rewrite list_lookup_insert_eq by (by eapply lookup_lt_Some).
      match goal with E : watchers s !! j = Some (WLog _) |- _ =>
        rewrite E end.
      rewrite Nat.eqb_refl. split; [|done].
      eexists. split; [done|]. by intros i [=].
    + rewrite list_lookup_insert_ne by done.
      apply Nat.eqb_neq in Hne as Hne'. rewrite Hne'. split; [eauto | lia].
  - (* a watcher cancels *)
    destruct (decide (j0 = j)) as [->|Hne].
    + rewrite list_lookup_insert_eq by (by eapply lookup_lt_Some).
      match goal with E : watchers s !! j = Some WCancel |- _ =>
        rewrite E end.
      rewrite Nat.eqb_refl. split; [|done].
      eexists. split; [done|]. by intros i [=].
    + rewrite list_lookup_insert_ne by done.
      apply Nat.eqb_neq in Hne as Hne'. rewrite Hne'. split; [eauto | lia].
  - (* a listener sends *)
    exists w. split; [done|]. intros i0 ->.
    destruct (Hch _ eq_refl) as (l0 & Hl0 & Hb).
    destruct (decide (i = i0)) as [->|Hne].
    + exfalso. simplify_eq. unfold Chan.send in *.
      destruct Hb as [b Hb]. rewrite Hb in *. by case_match.
    + rewrite set_errCh_lookup_ne by done. eauto.
  - (* a listener closes *)
    exists w. split; [done|]. intros i0 ->.
    destruct (Hch _ eq_refl) as (l0 & Hl0 & Hb).
    destruct (decide (i = i0)) as [->|Hne].
    + simplify_eq. erewrite set_errCh_lookup_eq by done.
      eexists. split; [done|]. cbn. unfold Chan.close in *.
      case_match; by simplify_eq.
    + rewrite set_errCh_lookup_ne by done. eauto.
Qed.

Lemma watcher_moves_cons j a sched :
  watcher_moves j (a :: sched) = watcher_moves j [a] + watcher_moves j sched.
Proof. destruct a; cbn; lia. Qed.

Lemma InvFanIn_run env j sched :
  forall s s',
    InvFanIn j s -> run env sched s = Some s' ->
    InvFanIn j s' /\ progress j s' = progress j s + watcher_moves j sched.
Proof.
  induction sched as [|a sched IH]; intros s s' Hinv Hrun; cbn in Hrun.
  - simplify_eq. split; [done | cbn; lia].
  - destruct (step env a s) as [s1|] eqn:E; [|done].
    destruct (InvFanIn_step _ _ _ _ _ Hinv E) as [Hinv1 Hp1].
    destruct (IH _ _ Hinv1 Hrun) as [Hinv' Hp'].
    split; [done|]. rewrite watcher_moves_cons. lia.
Qed.

Lemma fanin_outcome env j s :
  InvFanIn j s ->
  (Ctx.ctx_done (ctx s) = true \/
   (status s = Running /\ is_Some (step env (AWatcher j) s))) /\
  (progress j s = 3 -> Ctx.ctx_done (ctx s) = true) /\
  fatals (log s) = 0.
Proof.
  intros [[_ _ _ _ _ Hdone Hret _] HE Hst (w & Hw & Hch)].
  unfold InvExit in HE. unfold progress. rewrite Hw.
  assert (Hfs : fatal_site (pc s) = false)
    by (destruct (pc s); cbn in *; (done || lia)).
  split; [|split].
  - destruct (status s) as [|c] eqn:Est.
    + destruct w as [i|e| |].
      * right. split; [done|]. unfold step, watcher_step. rewrite Est, Hw.
        destruct (Hch i eq_refl) as (l & -> & [b Hb]).
        unfold Chan.recv. rewrite Hb. eauto.
      * right. split; [done|]. unfold step, watcher_step.
        rewrite Est, Hw. eauto.
      * right. split; [done|]. unfold step, watcher_step.
        rewrite Est, Hw. eauto.
      * left. eauto.
    + left. destruct HE as [(_ & Hpc & _)|(_ & Hf & _)]; [auto | congruence].
  - destruct w; try done. intros _. eauto.
  - destruct (status s); [apply HE|].
    destruct HE as [(_ & _ & ?)|(_ & Hf & _)]; [done | congruence].
Qed.

(** The three statements of a watcher whose channel holds a value. *)
Lemma watcher_runs env s j i l err :
  status s = Running -> watchers s !! j = Some (WRecv i) ->
  listeners s !! i = Some l -> Chan.buf (errCh l) = Some err ->
  exists s',
    run env [AWatcher j; AWatcher j; AWatcher j] s = Some s' /\
    log s' = log s ++ [mkEntry ErrorLevel (MsgErr err)] /\
    ctx s' = Ctx.cancel (ctx s) /\ Ctx.ctx_done (ctx s') = true /\
    status s' = Running.
Proof.
  intros Hst Hw Hl Hb.
  assert (Hj : j < length (watchers s)) by (by eapply lookup_lt_Some).
  cbn. unfold step at 1, watcher_step. rewrite Hst, Hw, Hl.
  unfold Chan.recv. rewrite Hb.
  unfold step at 1, watcher_step. cbn. rewrite Hst.
  rewrite list_lookup_insert_eq by done.
  unfold step at 1, watcher_step. cbn. rewrite Hst.
  rewrite list_lookup_insert_eq by (by rewrite length_insert).
  eexists. split; [done|]. by repeat split.
Qed.

(** A watcher's step never ends the process and touches, besides its own
    program counter and its channel, only the log and the context. *)
Lemma watcher_only_logs_and_cancels env k s s' :
  step env (AWatcher k) s = Some s' ->
  status s' = Running /\ pc s' = pc s /\
  (log s' = log s \/ exists e, log s' = log s ++ [mkEntry ErrorLevel (MsgErr e)]) /\
  (ctx s' = ctx s \/ ctx s' = Ctx.cancel (ctx s)).
Proof.
  intros H. step_cases H.
  all: cbn; repeat split; eauto.
Qed.

(** C4: after startup, when the channel of any listener [i] holds an error
    and its watcher [j] is waiting, the watcher's three statements log the
    error at Error level and cancel the lifetime context.  In every
    continuation of the execution, however the goroutines interleave, the
    context is done or the process runs with watcher [j] free to move, and it
    is done once watcher [j] has made its three moves; the context goes from
    live to done at most once; nothing is logged at Fatal level; and any
    watcher's step keeps the process running, adds at most one Error entry
    to the log and leaves the context as it is or cancelled. *)
Theorem listener_error_cancels_once env sched s j i l err :
  run env sched init = Some s -> status s = Running -> pc s = PcWait ->
  watchers s !! j = Some (WRecv i) -> listeners s !! i = Some l ->
  Chan.buf (errCh l) = Some err ->
  (exists s',
     run env [AWatcher j; AWatcher j; AWatcher j] s = Some s' /\
     log s' = log s ++ [mkEntry ErrorLevel (MsgErr err)] /\
     ctx s' = Ctx.cancel (ctx s) /\ Ctx.ctx_done (ctx s') = true /\
     status s' = Running) /\
  (forall sched' s',
     run env sched' s = Some s' ->
     (Ctx.ctx_done (ctx s') = true \/
      (status s' = Running /\ is_Some (step env (AWatcher j) s'))) /\
     (3 <= watcher_moves j sched' -> Ctx.ctx_done (ctx s') = true) /\
     cancellations (trace env sched' s) <= 1 /\
     fatals (log s') = 0 /\
     (forall k s'',
        step env (AWatcher k) s' = Some s'' ->
        status s'' = Running /\ pc s'' = pc s' /\
        (log s'' = log s' \/
         exists e, log s'' = log s' ++ [mkEntry ErrorLevel (MsgErr e)]) /\
        (ctx s'' = ctx s' \/ ctx s'' = Ctx.cancel (ctx s')))).
Proof.
  intros Hrun Hst Hpc Hw Hl Hb. split; [by eapply watcher_runs|].
  assert (Hinv : InvFanIn j s).
  { split.
    - by eapply reachable_listen, reachable_run.
    - by eapply reachable_exit, reachable_run.
    - rewrite Hpc. cbn. lia.
    - exists (WRecv i). split; [done|]. intros ? [= <-].
      exists l. by rewrite Hb. }
  assert (Hp : progress j s = 0) by (unfold progress; by rewrite Hw).
  intros sched' s' Hrun'.
  destruct (InvFanIn_run _ _ _ _ _ Hinv Hrun') as [Hinv' Hp'].
  destruct (fanin_outcome env _ _ Hinv') as (Hlive & Hdone & Hfatal).
  split; [done|]. split.
  { intros Hmoves. apply Hdone. unfold progress in *.
    repeat case_match; lia. }
  split; [apply cancellations_once|]. split; [done|].
  intros k s''. apply watcher_only_logs_and_cancels.
Qed.

(** The sample listener fails while serving. *)
Lemma listener_error_cancels_once_witness :
  exists s',
    run sample_env [AWatcher 0; AWatcher 0; AWatcher 0] failing_state
    = Some s' /\
    ctx s' = Ctx.cancel (ctx failing_state) /\
    log s' = log failing_state
             ++ [mkEntry ErrorLevel
                   (MsgErr (Some "serve: use of closed network connection"))].
Proof.
  assert (H1 : run sample_env failing init = Some failing_state)
    by (vm_compute; reflexivity).
  destruct (listener_error_cancels_once sample_env failing _ 0 0 _ _ H1
              eq_refl eq_refl eq_refl eq_refl eq_refl)
    as [(s' & Hr & Hlog & Hctx & _) _].
  exists s'. split; [exact Hr|]. split; [exact Hctx | exact Hlog].
Defined.

(** * An address that cannot be bound *)

Lemma ListenOn_processed env s c0 :
  InvLocals env s -> envconfig_Process env = Ok c0 -> 2 < stage (pc s) ->
  ListenOn (config s) = ListenOn c0.
Proof.
  intros [_ _ _ _ _ _ Hcfg _ _ _ _] Hc0 Hst.
  rewrite Hcfg. unfold config_at, processed. rewrite Hc0.
  destruct (Nat.leb_spec (stage (pc s)) 2); [lia|].
  destruct (Nat.leb (stage (pc s)) 13); [done|].
  by destruct (client_of env).
Qed.

Lemma InvBusy_step env k a e c0 act s s' :
  envconfig_Process env = Ok c0 -> ListenOn c0 !! k = Some a ->
  net_Listen env k a = Some e ->
  InvLocals env s -> InvListen s -> InvBusy k e s ->
  step env act s = Some s' -> InvBusy k e s'.
Proof.
  intros Hc0 Ha Hbind HL HW HB H.
  pose proof (ListenOn_processed _ _ _ HL Hc0) as Hcfg.
  destruct HW as [Hlen _ _ Hwl Hown _ _ _].
  step_cases H.
  all: try (cbn in *; congruence).
  all: unfold InvBusy in *; cbn.
  all: try match goal with E : pc _ = _ |- _ => rewrite ?E in * end.
  all: cbn in HB, Hlen, Hwl, Hcfg |- *.
  all: try (split; [lia | done]).
  all: try done.
  - split; lia.
  - (* the listener for address [i] is started *)
    destruct HB as [_ Hi].
    match goal with E : ListenOn _ !! _ = Some _ |- _ => rename E into Hu end.
    split; [lia|]. split; [done|]. intros -> _.
    rewrite Hcfg, Ha in Hu by lia. simplify_eq.
    rewrite lookup_app_r by lia. rewrite Hlen, Nat.sub_diag. cbn.
    eexists. split; [done|]. cbn. unfold ListenAndServe. by rewrite Hbind.
  - (* the loop cannot end before address [k] *)
    destruct HB as [_ Hi].
    match goal with E : ListenOn _ !! _ = None |- _ => rename E into Hu end.
    rewrite Hcfg in Hu by lia. apply lookup_ge_None in Hu.
    apply lookup_lt_Some in Ha. lia.
  - (* the check of listener [k] cannot pass *)
    destruct HB as [_ [Hi Hfull]]. split; [lia|].
    destruct (decide (i = k)) as [->|]; [|lia].
    destruct Hfull as (l' & Hl' & Hch); [done..|].
    simplify_eq. rewrite Hch in *. done.
  - destruct HB as [_ [Hi _]]. split; [lia|]. split; [done|]. done.
  - (* a watcher receives: not from channel [k] *)
    match goal with
    | E : watchers s !! ?j = Some (WRecv ?c) |- _ =>
        pose proof (Hown _ _ E) as ->;
        pose proof (lookup_lt_Some _ _ _ E) as Hj
    end.
    destruct HB as [Hst HB]. split; [done|].
    destruct (pc s); try done. cbn in Hwl.
    destruct HB as [Hi Hfull]. split; [done|]. intros -> Hrun.
    rewrite set_errCh_lookup_ne by lia. auto.
  - (* a send on the closed channel [k] is impossible *)
    destruct HB as [Hst HB]. split; [done|].
    destruct (pc s); try done.
    destruct HB as [Hi Hfull]. split; [done|]. intros -> Hrun.
    destruct (Hfull eq_refl Hrun) as (l' & Hl' & Hch).
    destruct (decide (i = k)) as [->|Hne].
    + simplify_eq. rewrite Hch in *. done.
    + rewrite set_errCh_lookup_ne by done. eauto.
  - (* so is closing it again *)
    destruct HB as [Hst HB]. split; [done|].
    destruct (pc s); try done.
    destruct HB as [Hi Hfull]. split; [done|]. intros -> Hrun.
    destruct (Hfull eq_refl Hrun) as (l' & Hl' & Hch).
    destruct (decide (i = k)) as [->|Hne].
    + simplify_eq. rewrite Hch in *. done.
    + rewrite set_errCh_lookup_ne by done. eauto.
Qed.

Lemma reachable_busy env k a e c0 s :
  envconfig_Process env = Ok c0 -> ListenOn c0 !! k = Some a ->
  net_Listen env k a = Some e ->
  reachable env s -> InvBusy k e s.
Proof.
  intros Hc0 Ha Hbind [sched Hrun].
  enough (InvLocals env s /\ InvListen s /\ InvBusy k e s) as (_ & _ & ?)
    by done.
  eapply (run_invariant
            (fun s => InvLocals env s /\ InvListen s /\ InvBusy k e s));
    [| |exact Hrun].
  - intros act s0 s1 (HL & HW & HB) Hstep. split; [|split].
    + by eapply InvLocals_step.
    + by eapply InvListen_step.
    + by eapply InvBusy_step.
  - split; [apply InvLocals_init|]. split; [apply InvListen_init|].
    split; cbn; [lia | done].
Qed.

(** * The logging calls and the context *)

Lemma count_log_app p l1 l2 :
  count_log p (l1 ++ l2) = count_log p l1 + count_log p l2.
Proof. induction l1 as [|e l1 IH]; cbn; [done | rewrite IH; lia]. Qed.

Lemma reports_app ws1 ws2 : reports (ws1 ++ ws2) = reports ws1 + reports ws2.
Proof.
  induction ws1 as [|w ws1 IH]; cbn; [done|]. destruct w; rewrite ?IH; lia.
Qed.

Lemma reports_insert ws j old new :
  ws !! j = Some old ->
  reports (<[j:=new]> ws) + reports [old] = reports ws + reports [new].
Proof.
  revert j. induction ws as [|w ws IH]; intros [|j] H; cbn in H; try done.
  - simplify_eq. cbn. destruct old, new; cbn; lia.
  - specialize (IH j H). cbn [insert list_insert] in *.
    change (<[S j:=new]> (w :: ws)) with (w :: <[j:=new]> ws).
    remember (reports [old]) as x. remember (reports [new]) as y.
    destruct w; cbn [reports];
      first [exact IH | cbn [Nat.add]; f_equal; exact IH].
Qed.

Lemma InvLog_init env : InvLog env init.
Proof. split; cbn; auto; done. Qed.

Lemma InvLog_step env a s s' :
  InvLocals env s -> InvLog env s -> step env a s = Some s' -> InvLog env s'.
Proof.
  intros HL Hinv H.
  destruct HL as [_ _ _ _ _ _ Hcfg _ _ _ _].
  step_cases H.
  all: try (cbn in *; congruence).
  all: destruct Hinv as [I1 I2 I3 I4 I5 I6 I7 I8 I9].
  all: split; cbn.
  all: try match goal with E : pc _ = _ |- _ => rewrite ?E in * end.
  all: cbn in I1, I2, I4, I5, I8, Hcfg |- *.
  all: rewrite ?count_log_app, ?reports_app, ?I1, ?I2, ?I3; cbn.
  all: try done.
  all: try lia.
  all: try (destruct I7 as [?|[?|?]]; [by left | done | by right; right]).
  all: try (right; left; done).
  all: try match goal with
         | E : watchers _ !! ?j = Some ?w
           |- context [reports (<[?j:=?new]> _)] =>
             pose proof (reports_insert _ _ _ new E) as Hr;
             cbn in Hr; cbn; lia
         end.
  all: try match goal with
         | E1 : otel _ = _ |- context [otel_Close] =>
             rewrite E1;
             try match goal with E2 : otel_Close _ = _ |- _ => rewrite E2 end;
             done
         end.
  - unfold level_of. by rewrite <- Hcfg, H3.
  - by left.
  - rewrite I4. by destruct (opentelemetry_IsEnabled env).
  - destruct I7 as [?|[?|[j Hj]]]; [by left | done |].
    right; right. exists j. by apply lookup_app_l_Some.
  - destruct I7 as [?|[?|[j' Hj]]]; [by left | by right; left |].
    right; right. exists j'. rewrite list_lookup_insert_ne; congruence.
  - destruct I7 as [?|[?|[j' Hj]]]; [by left | by right; left |].
    right; right. exists j'. rewrite list_lookup_insert_ne; congruence.
  - right; right. exists j. apply list_lookup_insert_eq.
    by eapply lookup_lt_Some.
  - intros Hpc. rewrite (I8 Hpc) in *. done.
  - match goal with E : onsig _ = Some _ |- _ => rewrite E end. by right.
  - match goal with E : onsig _ = Some _ |- _ => rewrite E end. by left.
Qed.

Lemma reachable_log env s : reachable env s -> InvLog env s.
Proof.
  intros [sched Hrun].
  enough (InvLocals env s /\ InvLog env s) as [_ ?] by done.
  eapply (run_invariant (fun s => InvLocals env s /\ InvLog env s));
    [|split; [apply InvLocals_init | apply InvLog_init]|exact Hrun].
  intros a s0 s1 [HL HG] Hstep. split.
  - by eapply InvLocals_step.
  - by eapply InvLog_step.
Qed.

(** * Listeners, watchers and the exit paths *)

Lemma returned_exited_zero s :
  InvExit s -> (pc s = PcReturned <-> status s = Exited 0).
Proof.
  unfold InvExit. destruct (status s) as [|c].
  - intros [_ Hpc]. split; [done | discriminate].
  - intros [(-> & Hpc & _)|(-> & Hf & _)]; split; try done.
    intros Hpc. rewrite Hpc in Hf. discriminate.
Qed.

(** When the bind of the configured address [k] fails with [e], then in
    every reachable state, however the goroutines interleave, no listener
    after [k] has been started and no watcher for [k] or a later address
    exists, [main] never reaches the wait on the lifetime context, "Startup
    completed" is never logged and the process never exits with code 0; and
    when [main] stands at the check of listener [k], its step logs [e] at
    Fatal level and exits with code 1. *)
Theorem bind_failure_stops_startup env sched s c0 k a e :
  run env sched init = Some s ->
  envconfig_Process env = Ok c0 -> ListenOn c0 !! k = Some a ->
  net_Listen env k a = Some e ->
  length (listeners s) <= S k /\ length (watchers s) <= k /\
  pc s <> PcWait /\ status s <> Exited 0 /\
  count_log is_completed (log s) = 0 /\
  (pc s = PcExitOnErr k -> status s = Running ->
   exists s', step env AMain s = Some s' /\ status s' = Exited 1 /\
     log s' = log s ++ [mkEntry FatalLevel (MsgErr (Some e))]).
Proof.
  intros Hrun Hc0 Ha Hbind.
  pose proof (reachable_run _ _ _ Hrun) as Hr.
  pose proof (reachable_busy _ _ _ _ _ _ Hc0 Ha Hbind Hr) as [Hst HB].
  destruct (reachable_listen _ _ Hr) as [Hlen _ _ Hwl _ _ _ _].
  pose proof (returned_exited_zero _ (reachable_exit _ _ Hr)) as Hret.
  destruct (reachable_log _ _ Hr) as [Hdone _ _ _ _ _ _ _ _].
  destruct (Nat.leb_spec 16 (stage (pc s))); [lia|].
  repeat split; try done.
  - rewrite Hlen. destruct (pc s); cbn in *; lia.
  - rewrite Hwl. destruct (pc s); cbn in *; lia.
  - intros Hpc. rewrite Hpc in Hst. cbn in Hst. lia.
  - intros Hex. apply Hret in Hex. rewrite Hex in Hst. cbn in Hst. lia.
  - intros Hpc Hstat. rewrite Hpc in HB.
    destruct HB as [_ (l & Hl & Hch)]; [done..|].
    unfold step, main_step, exitOnErr, Chan.recv.
    rewrite Hstat, Hpc, Hl, Hch. cbn. eexists. by repeat split.
Qed.

(** Three addresses, the second in use. *)
Lemma bind_failure_stops_startup_witness :
  length (listeners second_listener_state) <= 2 /\
  status second_listener_state <> Exited 0.
Proof.
  assert (H1 : run busy_env second_listener init = Some second_listener_state)
    by (vm_compute; reflexivity).
  assert (H2 : ListenOn busy_config !! 1 = Some "tcp://10.0.0.2:5002")
    by reflexivity.
  destruct (bind_failure_stops_startup busy_env second_listener _ busy_config
              1 _ "bind: address already in use" H1 eq_refl H2 eq_refl)
    as (Hl & _ & _ & Hs & _).
  split; [exact Hl | exact Hs].
Defined.

(** In every reachable state there is a listener for every watcher and at
    most one listener, the one [main] is checking, without a watcher; the
    listeners never outnumber the configured addresses; and a watcher
    blocked in its receive reads the channel of the listener with its own
    index, so that no channel has two readers. *)
Theorem watchers_match_listeners env sched s :
  run env sched init = Some s ->
  length (watchers s) <= length (listeners s) /\
  length (listeners s) <= S (length (watchers s)) /\
  length (listeners s) <= length (ListenOn (config s)) /\
  (forall j i, watchers s !! j = Some (WRecv i) -> i = j) /\
  (forall j w, watchers s !! j = Some w -> is_Some (listeners s !! j)).
Proof.
  intros Hrun.
  destruct (reachable_listen _ _ (reachable_run _ _ _ Hrun))
    as [Hlen Hb _ Hwl Hown _ _ _].
  assert (length (watchers s) <= length (listeners s)) as Hle
    by (rewrite Hlen, Hwl; destruct (pc s); cbn; lia).
  repeat split; try done.
  - rewrite Hlen, Hwl. destruct (pc s); cbn; lia.
  - lia.
  - intros j w Hj. apply lookup_lt_is_Some_2.
    apply lookup_lt_Some in Hj. lia.
Qed.

(** The sample process with its listener failing. *)
Lemma watchers_match_listeners_witness :
  length (watchers failing_state) <= length (listeners failing_state) /\
  length (listeners failing_state) <= length (ListenOn (config failing_state)).
Proof.
  assert (H1 : run sample_env failing init = Some failing_state)
    by (vm_compute; reflexivity).
  destruct (watchers_match_listeners sample_env failing _ H1)
    as (Hw & _ & Hl & _).
  split; [exact Hw | exact Hl].
Defined.

Lemma reports_le ws : reports ws <= length ws.
Proof. induction ws as [|w ws IH]; cbn; [lia|]. destruct w; lia. Qed.

(** In every reachable state the [Error(err)] calls that watchers have
    made are as many as the watchers that have passed their logging
    statement: each watcher takes one value from its channel and makes one
    logging call for it, and these calls never outnumber the configured
    addresses. *)
Theorem listener_errors_logged_once env sched s :
  run env sched init = Some s ->
  count_log is_listener_error (log s) = reports (watchers s) /\
  reports (watchers s) <= length (watchers s) /\
  length (watchers s) <= length (ListenOn (config s)).
Proof.
  intros Hrun. pose proof (reachable_run _ _ _ Hrun) as Hr.
  destruct (reachable_log _ _ Hr) as [_ _ Herr _ _ _ _ _ _].
  destruct (reachable_listen _ _ Hr) as [_ Hb _ Hwl _ _ _ _].
  split; [done|]. split; [apply reports_le|].
  rewrite Hwl. destruct (pc s); cbn in *; lia.
Qed.

Lemma listener_errors_logged_once_witness :
  count_log is_listener_error (log async_failure_state) = 1.
Proof.
  assert (H1 : run sample_env async_failure init = Some async_failure_state)
    by (vm_compute; reflexivity).
  destruct (listener_errors_logged_once sample_env async_failure _ H1)
    as (H & _). rewrite H. reflexivity.
Defined.

(** The signals stay registered with the lifetime context until the first
    [cancel()]: in every reachable state in which they are unregistered the
    context is done and either [main] has returned or a watcher has finished;
    an exit with code 0 leaves the context cancelled and unregistered; and an
    exit with code 1 before any watcher finished leaves the signals
    registered, the deferred [cancel()] not having run. *)
Theorem signals_registered_until_cancel env sched s :
  run env sched init = Some s ->
  (status s = Exited 0 -> ctx s = Ctx.mkCtx true false) /\
  (Ctx.registered (ctx s) = false ->
   Ctx.ctx_done (ctx s) = true /\
   (status s = Exited 0 \/ exists j, watchers s !! j = Some WDone)) /\
  (status s = Exited 1 -> (forall j, watchers s !! j <> Some WDone) ->
   Ctx.registered (ctx s) = true).
Proof.
  intros Hrun. pose proof (reachable_run _ _ _ Hrun) as Hr.
  destruct (reachable_log _ _ Hr) as [_ _ _ _ _ _ Hreg Hcan Hstop].
  pose proof (returned_exited_zero _ (reachable_exit _ _ Hr)) as Hret.
  split; [|split].
  - intros Hex. apply Hcan. by apply Hret.
  - intros Hoff. split; [auto|].
    destruct Hreg as [Hon|[Hpc|Hj]]; [congruence | | by right].
    left. by apply Hret.
  - intros Hex Hnone.
    destruct Hreg as [Hon|[Hpc|[j Hj]]]; [done | | by destruct (Hnone j)].
    apply Hret in Hpc. congruence.
Qed.

Lemma signals_registered_until_cancel_witness :
  ctx async_failure_state = Ctx.mkCtx true false.
Proof.
  assert (H1 : run sample_env async_failure init = Some async_failure_state)
    by (vm_compute; reflexivity).
  exact (proj1 (signals_registered_until_cancel sample_env async_failure _ H1)
           eq_refl).
Defined.

(** The logging call for the error of the deferred telemetry [Close] is
    made at most once, and it has been made exactly when the process has
    exited with code 0 with telemetry enabled and a failing [Close]: an exit
    through a Fatal call never runs the deferred function. *)
Theorem telemetry_close_only_on_return env sched s :
  run env sched init = Some s ->
  count_log is_close (log s) <= 1 /\
  (count_log is_close (log s) = 1 <->
   status s = Exited 0 /\ opentelemetry_IsEnabled env = true /\
   is_Some (otel_Close env)) /\
  (status s = Exited 1 -> count_log is_close (log s) = 0).
Proof.
  intros Hrun. pose proof (reachable_run _ _ _ Hrun) as Hr.
  destruct (reachable_log _ _ Hr) as [_ Hclose _ Hotel _ _ _ _ _].
  pose proof (returned_exited_zero _ (reachable_exit _ _ Hr)) as Hret.
  rewrite Hclose.
  destruct (pc s) eqn:Hpc;
    try (split; [lia|]; split;
           [split; [lia | intros (Hex & _); apply Hret in Hex; done] | done]).
  rewrite Hotel. cbn.
  assert (status s = Exited 0) as Hex by (by apply Hret).
  destruct (opentelemetry_IsEnabled env), (otel_Close env) as [e|]; cbn.
  all: split; [lia|]; split; [|intros; congruence].
  all: split; try lia; try done.
  all: intros (_ & ? & [? ?]); done.
Qed.

(** Telemetry is enabled, its [Close] fails, and a terminate signal ends
    the process. *)
Lemma telemetry_close_only_on_return_witness :
  count_log is_close (log otel_terminated_state) = 1.
Proof.
  assert (H1 : run otel_env otel_terminated init = Some otel_terminated_state)
    by (vm_compute; reflexivity).
  apply (proj1 (proj2 (telemetry_close_only_on_return otel_env
                         otel_terminated _ H1))).
  split; [reflexivity|]. split; [reflexivity|]. by eexists.
Defined.

(** * The chain, the startup entry and the done context *)

(** In every reachable state with a constructed chain, the chain was
    registered on the gRPC server that [main] built with the server TLS
    configuration, it dials with the client options built with the client TLS
    configuration, and its token generator and the one of the dial options
    share the X.509 source of the process and the configured maximum token
    lifetime. *)
Theorem chain_wiring env sched s ch :
  run env sched init = Some s -> chain s = Some ch ->
  server s = Some (chain_registered_on ch) /\
  dial s = Some (chain_dial ch) /\
  source s = Some (chain_token_source ch) /\
  tlsServer s = Some (creds (chain_registered_on ch)) /\
  tlsClient s = Some (transport (chain_dial ch)) /\
  token_source (chain_dial ch) = chain_token_source ch /\
  token_lifetime (chain_dial ch) = chain_token_lifetime ch /\
  chain_token_lifetime ch = MaxTokenLifetime (config s).
Proof.
  intros Hrun Hch.
  destruct (reachable_locals _ _ (reachable_run _ _ _ Hrun))
    as [Hs Hcc Hsc Hsrv Hd _ Hcfg Hchain _ _ _].
  rewrite Hch in Hchain. unfold after in *.
  destruct (Nat.leb_spec (stage (pc s)) 14) as [|H14]; [done|].
  destruct (Nat.leb_spec (stage (pc s)) 6); [lia|].
  destruct (Nat.leb_spec (stage (pc s)) 8); [lia|].
  destruct (Nat.leb_spec (stage (pc s)) 9); [lia|].
  destruct (Nat.leb_spec (stage (pc s)) 10); [lia|].
  destruct (Nat.leb_spec (stage (pc s)) 11); [lia|].
  rewrite Hs, Hcc, Hsc, Hsrv, Hd, Hcfg.
  unfold chain_of, dial_of, server_of, tlsClient_of, tlsServer_of, config_at
    in *.
  destruct (Nat.leb_spec (stage (pc s)) 2); [lia|].
  destruct (Nat.leb_spec (stage (pc s)) 13); [lia|].
  destruct (source_of env) as [src|]; [|done].
  cbn in Hchain. simplify_eq. cbn.
  repeat split. by destruct (client_of env).
Qed.

Lemma chain_wiring_witness :
  exists ch, chain serving_state = Some ch /\
             server serving_state = Some (chain_registered_on ch).
Proof.
  assert (H1 : run sample_env serving init = Some serving_state)
    by (vm_compute; reflexivity).
  eexists. split; [reflexivity|].
  exact (proj1 (chain_wiring sample_env serving _ _ H1 eq_refl)).
Defined.

(** The logging call "Startup completed" is made at most once, and it has
    been made exactly when [main] has left the loop; from then on every
    configured address has a listener and a watcher, no Fatal call is made
    and the process does not exit with code 1. *)
Theorem startup_completed_logged_once env sched s :
  run env sched init = Some s ->
  count_log is_completed (log s) <= 1 /\
  (count_log is_completed (log s) = 1 <-> 16 <= stage (pc s)) /\
  (16 <= stage (pc s) ->
   length (listeners s) = length (ListenOn (config s)) /\
   length (watchers s) = length (ListenOn (config s)) /\
   fatals (log s) = 0 /\ status s <> Exited 1).
Proof.
  intros Hrun. pose proof (reachable_run _ _ _ Hrun) as Hr.
  destruct (reachable_log _ _ Hr) as [Hdone _ _ _ _ _ _ _ _].
  destruct (reachable_listen _ _ Hr) as [Hlen _ _ Hwl _ _ _ _].
  pose proof (reachable_exit _ _ Hr) as HE. unfold InvExit in HE.
  rewrite Hdone.
  destruct (Nat.leb_spec 16 (stage (pc s))) as [Hst|Hst].
  - split; [lia|]. split; [done|]. intros _.
    assert (fatal_site (pc s) = false) as Hfs
      by (destruct (pc s); cbn in *; (done || lia)).
    rewrite Hlen, Hwl. repeat split.
    + destruct (pc s); cbn in *; (done || lia).
    + destruct (pc s); cbn in *; (done || lia).
    + destruct (status s); [apply HE|].
      destruct HE as [(_ & _ & ?)|(_ & ? & _)]; [done | congruence].
    + intros Hex. rewrite Hex in HE.
      destruct HE as [(? & _)|(_ & ? & _)]; [done | congruence].
  - split; [lia|]. split; [split; [done | lia] | lia].
Qed.

Lemma startup_completed_logged_once_witness :
  count_log is_completed (log serving_state) = 1.
Proof.
  assert (H1 : run sample_env serving init = Some serving_state)
    by (vm_compute; reflexivity).
  apply (proj1 (proj2 (startup_completed_logged_once sample_env serving _
                         H1))).
  vm_compute. lia.
Defined.

Lemma done_run env sched :
  forall s s', run env sched s = Some s' -> Ctx.ctx_done (ctx s) = true ->
               Ctx.ctx_done (ctx s') = true.
Proof.
  induction sched as [|a sched IH]; intros s s' Hrun Hd; cbn in Hrun.
  - by simplify_eq.
  - destruct (step env a s) as [s1|] eqn:E; [|done].
    eapply IH; [done|]. by eapply done_mono.
Qed.

(** Once the lifetime context is done, by a signal or by [cancel()], it is
    done in every continuation of the execution, whatever moves next; and
    whenever [main] then runs and waits on the context, its next step
    returns and the process exits with code 0. *)
Theorem done_is_permanent env s sched' s' :
  Ctx.ctx_done (ctx s) = true -> run env sched' s = Some s' ->
  Ctx.ctx_done (ctx s') = true /\
  (status s' = Running -> pc s' = PcWait ->
   exists s'', step env AMain s' = Some s'' /\ status s'' = Exited 0 /\
               pc s'' = PcReturned).
Proof.
  intros Hd Hrun.
  pose proof (done_run _ _ _ _ Hrun Hd) as Hd'.
  split; [done|]. intros Hst Hpc.
  unfold step, main_step. rewrite Hst, Hpc, Hd'.
  eexists. split; [done|]. by split.
Qed.

(** A terminate signal arrives before [main] has started the listener. *)
Lemma done_is_permanent_witness :
  exists s', run sample_env [AMain; AMain; AMain]
               (with_ctx (Ctx.on_signal (ctx (state_after sample_env startup)))
                  (state_after sample_env startup)) = Some s' /\
             Ctx.ctx_done (ctx s') = true.
Proof.
  eexists. split; [vm_compute; reflexivity|].
  eapply (proj1 (done_is_permanent sample_env
                   (with_ctx (Ctx.on_signal
                                (ctx (state_after sample_env startup)))
                      (state_after sample_env startup))
                   [AMain; AMain; AMain] _ eq_refl _)).
  Unshelve. vm_compute. reflexivity.
Defined.

(** * The length of startup *)

Lemma main_progress env s :
  InvLocals env s -> InvListen s -> InvExit s ->
  status s = Running -> pc s <> PcWait ->
  exists s', step env AMain s = Some s' /\
    (status s' = Exited 1 \/
     (status s' = Running /\ remaining env s' < remaining env s)).
Proof.
  intros [I1 I2 I3 I4 I5 I6 I7 I8 I9 I10 I11] [Hlen Hb _ _ _ _ _ _] HE
    Hst Hpc.
  unfold InvExit in HE. rewrite Hst in HE. destruct HE as [_ Hret].
  unfold step. rewrite Hst. unfold main_step, exitOnErr, remaining.
  destruct (pc s) eqn:E; cbn in *; try done.
  all: rewrite ?I1, ?I2, ?I3, ?I4, ?I5, ?I6.
  all: unfold dial_of, server_of, tlsClient_of, tlsServer_of, source_of,
         client_of in *.
  all: try (destruct (workloadapi_NewX509Source env) as [src|]; [|done]).
  all: try (destruct (k8s_NewVersionedClient env) as [cl|]; [|done]).
  all: cbn.
  all: repeat case_match; simplify_eq.
  all: try (eexists; (split; [done|]); cbn; rewrite ?Hst;
            first [by left | right; split; [done | cbn; lia]]).
  - (* the check passed: one address less to start *)
    eexists. split; [done|]. right. split; [done|].
    rewrite I7 in Hb. cbn in Hb |- *. lia.
  - cbn in *. congruence.
  - (* the listener that is checked exists *)
    match goal with E : listeners s !! _ = None |- _ =>
      apply lookup_ge_None in E end. lia.
Qed.

Lemma remaining_pos env s :
  InvLocals env s -> InvListen s -> InvExit s ->
  status s = Running -> pc s <> PcWait -> 0 < remaining env s.
Proof.
  intros [_ _ _ _ _ _ I7 _ _ _ _] [_ Hb _ _ _ _ _ _] HE Hst Hpc.
  unfold InvExit in HE. rewrite Hst in HE. destruct HE as [_ Hret].
  unfold remaining. destruct (pc s) eqn:E; cbn; try lia; try done.
  rewrite I7 in Hb. unfold config_at in Hb. cbn in Hb.
  destruct (client_of env); cbn in Hb; lia.
Qed.

Lemma reachable_step env a s s' :
  reachable env s -> step env a s = Some s' -> reachable env s'.
Proof.
  intros [sched Hrun] Hstep. exists (sched ++ [a]).
  rewrite run_app, Hrun. cbn. by rewrite Hstep.
Qed.

Lemma pc_wait_dec (p : PC) : {p = PcWait} + {p <> PcWait}.
Proof. destruct p; (by left) || (by right). Qed.

Lemma startup_bounded_from env :
  forall n s,
    reachable env s -> status s = Running -> remaining env s <= n ->
    exists m s',
      m <= remaining env s /\ run env (repeat AMain m) s = Some s' /\
      (status s' = Exited 1 \/ (status s' = Running /\ pc s' = PcWait)).
Proof.
  induction n as [|n IH]; intros s Hr Hst Hn.
  all: destruct (pc_wait_dec (pc s)) as [Hw|Hw];
    [exists 0, s; split; [lia|]; split; [done|]; by right|].
  all: pose proof (reachable_locals _ _ Hr) as HL.
  all: pose proof (reachable_listen _ _ Hr) as HW.
  all: pose proof (reachable_exit _ _ Hr) as HE.
  all: pose proof (remaining_pos _ _ HL HW HE Hst Hw) as Hpos.
  - lia.
  - destruct (main_progress _ _ HL HW HE Hst Hw)
      as (s1 & Hstep & [Hex|[Hst1 Hlt]]).
    + exists 1, s1. split; [lia|]. split; [|by left]. cbn. by rewrite Hstep.
    + destruct (IH s1) as (m & s' & Hm & Hrun & Hfin);
        [by eapply reachable_step | done | lia |].
      exists (S m), s'. split; [lia|]. split; [|done].
      cbn. by rewrite Hstep.
Qed.

(** From every reachable running state, [main] alone, however the other
    goroutines have interleaved so far, either exits with code 1 at a fatal
    condition or reaches the wait on the lifetime context, within the steps
    [remaining] counts: at most sixteen plus two per configured address. *)
Theorem startup_is_bounded env sched s :
  run env sched init = Some s -> status s = Running ->
  remaining env s <= 16 + 2 * length (ListenOn (processed env)) /\
  exists m s',
    m <= remaining env s /\ run env (repeat AMain m) s = Some s' /\
    (status s' = Exited 1 \/ (status s' = Running /\ pc s' = PcWait)).
Proof.
  intros Hrun Hst. split.
  - unfold remaining. destruct (pc s); cbn; lia.
  - eapply startup_bounded_from; [by eapply reachable_run | done | done].
Qed.

(** The sample process from its first statement: eighteen steps. *)
Lemma startup_is_bounded_witness :
  exists m s',
    m <= 18 /\ run sample_env (repeat AMain m) init = Some s' /\
    (status s' = Exited 1 \/ (status s' = Running /\ pc s' = PcWait)).
Proof.
  destruct (startup_is_bounded sample_env [] init eq_refl eq_refl)
    as [_ (m & s' & Hm & Hrun & Hfin)].
  exists m, s'. split; [exact Hm|]. split; [exact Hrun | exact Hfin].
Defined.
